(** * ShellBot: a shallow embedding of the pty wrapper and of the minimal wrapper

    The Python sources [shell_bot_pty_fixed.py] and [shell_bot_minimal.py]
    are sequences of operating-system calls glued by [try]/[except]/[finally].
    They are embedded here as functions in a small monad that

    - threads the fields of the bot object ([self.pid], [self.master_fd],
      [self.running]; [self.process] for the minimal wrapper),
    - distinguishes a normal value, a raised Python exception, and the two
      ways in which a call never comes back (the process image was replaced
      by [exec]; the polling loop is still running when the script of
      observations ends),
    - records every call in a chronological trace of events.

    What the operating system answers to each call is read from a [world]
    record; the code never decides it. *)

From Stdlib Require Import ZArith List String Ascii Bool Lia.
From Stdlib.Strings Require Import Byte.
Import ListNotations.
Open Scope Z_scope.

(** ** Python exceptions *)

Inductive exn : Type :=
| OSError (errno : Z)          (* OSError and its subclasses, select.error, IOError *)
| TermiosError (errno : Z)     (* termios.error, a direct subclass of Exception *)
| ValueError
| TypeError
| KeyboardInterrupt.           (* a BaseException that is not an Exception *)

Definition EAGAIN : Z := 11.
Definition ECHILD : Z := 10.
Definition EIO : Z := 5.
Definition ENOTTY : Z := 25.

(** [except Exception] *)
Definition is_Exception (e : exn) : bool :=
  match e with KeyboardInterrupt => false | _ => true end.

(** [except (OSError, IOError)]; [select.error] is the same class. *)
Definition is_OSError (e : exn) : bool :=
  match e with OSError _ => true | _ => false end.

Definition is_KeyboardInterrupt (e : exn) : bool :=
  match e with KeyboardInterrupt => true | _ => false end.

(** [except ChildProcessError]: the subclass Python picks for errno ECHILD. *)
Definition is_ChildProcessError (e : exn) : bool :=
  match e with OSError n => n =? ECHILD | _ => false end.

(** [e.errno] of a caught OSError. *)
Definition errno_of (e : exn) : Z :=
  match e with OSError n => n | TermiosError n => n | _ => 0 end.

(** ** Answers of the operating system *)

Inductive result (A : Type) : Type :=
| Ok (a : A)
| Err (e : exn).
Arguments Ok {A} a.
Arguments Err {A} e.

Definition bytes := list byte.

(** The list returned by [termios.tcgetattr]. *)
Record termios : Type := mk_termios {
  iflag : Z; oflag : Z; cflag : Z; lflag : Z;
  ispeed : Z; ospeed : Z; cc : list Z
}.

(** What the handler of one ready descriptor gets from its calls. *)
Record io_resp : Type := mk_io {
  io_read : result bytes;      (* os.read *)
  io_write : result Z;         (* os.write, buffer.write: the number of bytes taken *)
  io_flush : result unit       (* sys.stdout.flush *)
}.

(** One [select.select] call: the ready descriptors, in order, each with the
    answers its handler will get; or the exception the call raises. *)
Definition poll : Type := result (list (Z * io_resp)).

Record world : Type := mk_world {
  w_stdin_tty : option termios;  (* attributes of the terminal on stdin; None: not a terminal *)
  w_raw : termios -> termios;    (* what tty.setraw turns the attributes into *)
  w_fork : result (Z * Z);       (* pty.fork: (pid, master_fd) *)
  w_exec : option exn;           (* os.execvp / os.execlp: None when the image is replaced *)
  w_setraw : result unit;
  w_getfl : result Z;            (* fcntl F_GETFL *)
  w_setfl : result unit;         (* fcntl F_SETFL *)
  w_polls : list poll;           (* what the successive loop iterations observe *)
  w_waitpid : result Z;          (* raw wait status *)
  w_tcsetattr : result unit;
  w_close : result unit;
  w_kill : result unit
}.

(** ** Events *)

(** The buffered binary streams [sys.stdout.buffer] and [sys.stderr.buffer]. *)
Inductive stream : Type := Sys_stdout | Sys_stderr.

Inductive event : Type :=
| EvTcgetattr (fd : Z) (r : result termios)
| EvFork (r : result (Z * Z))
| EvSetenv (key value : string)
| EvExec (file : string) (argv : list string) (r : option exn)
| EvSetraw (fd : Z) (r : result unit)
| EvGetfl (fd : Z) (r : result Z)
| EvSetfl (fd : Z) (flags : Z) (r : result unit)
| EvSelect (rfds : list Z) (timeout_ms : Z) (r : result (list Z))
| EvRead (fd : Z) (n : Z) (r : result bytes)
| EvWrite (fd : Z) (data : bytes) (r : result Z)
| EvFlush (r : result unit)
| EvWaitpid (pid : Z) (options : Z) (r : result Z)
| EvTcsetattr (fd : Z) (when : Z) (a : termios) (r : result unit)
| EvClose (fd : Z) (r : result unit)
| EvKill (pid : Z) (sig : Z) (r : result unit)
| EvPrintErr (e : exn)
| EvPopen (cmd : string) (r : result (Z * Z * Z))
| EvPoll (r : option Z)
| EvStreamWrite (s : stream) (data : bytes) (r : result Z)
| EvStreamFlush (s : stream) (r : result unit)
| EvProcWait (r : result Z)
| EvTerminate (r : result unit).

(** ** The monad *)

Inductive halt : Type :=
| Replaced (file : string) (argv : list string)  (* exec succeeded *)
| Polling.                                       (* the loop outlives the script *)

Inductive res (A : Type) : Type :=
| Val (a : A)
| Exn (e : exn)
| Halt (h : halt).
Arguments Val {A} a.
Arguments Exn {A} e.
Arguments Halt {A} h.

Record ShellBotPTY : Type := mk_bot {
  command : string;
  pid : option Z;
  master_fd : option Z;
  running : bool
}.

(** [ShellBotPTY.__init__] *)
Definition init (cmd : string) : ShellBotPTY :=
  {| command := cmd; pid := None; master_fd := None; running := true |}.

(** Computations over an object of type [S]. *)
Definition Mon (S A : Type) : Type := S -> res A * S * list event.

Definition M (A : Type) : Type := Mon ShellBotPTY A.

Definition ret {S A} (a : A) : Mon S A := fun b => (Val a, b, []).

Definition raise {S A} (e : exn) : Mon S A := fun b => (Exn e, b, []).

Definition bind {S A B} (m : Mon S A) (f : A -> Mon S B) : Mon S B :=
  fun b =>
    match m b with
    | (Val a, b1, t1) =>
        match f a b1 with (r, b2, t2) => (r, b2, t1 ++ t2) end
    | (Exn e, b1, t1) => (Exn e, b1, t1)
    | (Halt h, b1, t1) => (Halt h, b1, t1)
    end.

Declare Scope py_scope.
Delimit Scope py_scope with py.
Notation "x <- m ;; k" := (bind m (fun x => k))
  (at level 61, m at next level, right associativity) : py_scope.
Notation "m ;; k" := (bind m (fun _ => k))
  (at level 61, right associativity) : py_scope.
Open Scope py_scope.

Definition emit {S} (e : event) : Mon S unit := fun b => (Val tt, b, [e]).

Definition of_result {S A} (r : result A) : Mon S A :=
  match r with Ok a => ret a | Err e => raise e end.

(** A call: record it with its answer, then return or raise. *)
Definition call {S A} (ev : result A -> event) (r : result A) : Mon S A :=
  emit (ev r) ;; of_result r.

(** [try: body except ...: handler]. [handler e] is [None] when no clause
    matches [e]. *)
Definition try_except {S A} (body : Mon S A)
           (handler : exn -> option (Mon S A)) : Mon S A :=
  fun b =>
    match body b with
    | (Exn e, b1, t1) =>
        match handler e with
        | Some h => match h b1 with (r, b2, t2) => (r, b2, t1 ++ t2) end
        | None => (Exn e, b1, t1)
        end
    | other => other
    end.

(** [try: body finally: fin]. The [finally] block runs after a value and
    after an exception; an exception of its own replaces the outcome of the
    body. It does not run when the body never comes back. *)
Definition try_finally {S A} (body : Mon S A) (fin : Mon S unit) : Mon S A :=
  fun b =>
    match body b with
    | (Halt h, b1, t1) => (Halt h, b1, t1)
    | (r, b1, t1) =>
        match fin b1 with
        | (Val _, b2, t2) => (r, b2, t1 ++ t2)
        | (Exn e, b2, t2) => (Exn e, b2, t1 ++ t2)
        | (Halt h, b2, t2) => (Halt h, b2, t1 ++ t2)
        end
    end.

Definition get_pid : M (option Z) := fun b => (Val (pid b), b, []).
Definition get_master_fd : M (option Z) := fun b => (Val (master_fd b), b, []).
Definition get_running : M bool := fun b => (Val (running b), b, []).
Definition get_command : M string := fun b => (Val (command b), b, []).

Definition set_pid (p : option Z) : M unit :=
  fun b => (Val tt, {| command := command b; pid := p;
                       master_fd := master_fd b; running := running b |}, []).
Definition set_master_fd (m : option Z) : M unit :=
  fun b => (Val tt, {| command := command b; pid := pid b;
                       master_fd := m; running := running b |}, []).
Definition set_running (r : bool) : M unit :=
  fun b => (Val tt, {| command := command b; pid := pid b;
                       master_fd := master_fd b; running := r |}, []).

(** An integer argument that is [None] makes the os call raise TypeError. *)
Definition as_int {S} (o : option Z) : Mon S Z :=
  match o with Some n => ret n | None => raise TypeError end.

(** ** Constants of the os, termios, signal and fcntl modules (Linux) *)

Definition stdin_fd : Z := 0.     (* sys.stdin.fileno() *)
Definition stdout_fd : Z := 1.    (* sys.stdout.fileno() *)
Definition TCSADRAIN : Z := 1.
Definition SIGTERM : Z := 15.
Definition O_NONBLOCK : Z := 2048.
Definition CHUNK : Z := 8192.
Definition POLL_MS : Z := 100.    (* the 0.1 s timeout of select *)

(** [os.WEXITSTATUS] *)
Definition WEXITSTATUS (status : Z) : Z := Z.land (Z.shiftr status 8) 255.

(** Raw wait status of a child that called exit(code), and of a child killed
    by signal [sig] (with or without a core dump). *)
Definition status_exited (code : Z) : Z := Z.shiftl code 8.
Definition status_signaled (sig : Z) (core : bool) : Z :=
  Z.lor sig (if core then 128 else 0).

(** ** shlex.split

    [shlex.split(s)] is the POSIX-mode tokenizer of the Python library with
    [whitespace_split = True], no comment characters and no punctuation
    characters. [read_tokens] follows the branches of [shlex.read_token] for
    these settings, one input character at a time, and collects the tokens
    that the successive calls return. [None] stands for the ValueError of an
    unterminated quotation or of a trailing escape character. *)

Inductive lex_state : Type :=
| st_space                                  (* self.state == ' ' *)
| st_word                                   (* self.state == 'a' *)
| st_quote (q : ascii)                      (* self.state in self.quotes *)
| st_escape (escapedstate : option ascii).  (* self.state in self.escape; None is 'a' *)

Definition backslash : ascii := "092"%char.
Definition dquote : ascii := "034"%char.
Definition squote : ascii := "039"%char.

Definition is_whitespace (c : ascii) : bool :=
  ((c =? " ") || (c =? "009") || (c =? "013") || (c =? "010"))%char.
Definition is_quote (c : ascii) : bool := ((c =? squote) || (c =? dquote))%char.
Definition is_escape (c : ascii) : bool := (c =? backslash)%char.
Definition is_escapedquote (c : ascii) : bool := (c =? dquote)%char.

Definition snoc (token : string) (c : ascii) : string :=
  (token ++ String c EmptyString)%string.

Definition nonempty (token : string) : bool :=
  match token with EmptyString => false | _ => true end.

Fixpoint read_tokens (st : lex_state) (token : string) (quoted : bool)
         (input : list ascii) : option (list string) :=
  match input with
  | [] =>
      match st with
      | st_space => Some []
      | st_word => if negb quoted && negb (nonempty token) then Some [] else Some [token]
      | st_quote _ => None
      | st_escape _ => None
      end
  | c :: rest =>
      match st with
      | st_space =>
          if is_whitespace c then
            if nonempty token || quoted
            then option_map (cons token) (read_tokens st_space EmptyString false rest)
            else read_tokens st_space token quoted rest
          else if is_escape c then read_tokens (st_escape None) token quoted rest
          else if is_quote c then read_tokens (st_quote c) token quoted rest
          else read_tokens st_word (String c EmptyString) quoted rest
      | st_quote q =>
          if (c =? q)%char then read_tokens st_word token true rest
          else if is_escape c && is_escapedquote q
               then read_tokens (st_escape (Some q)) token true rest
               else read_tokens (st_quote q) (snoc token c) true rest
      | st_escape None =>
          read_tokens st_word (snoc token c) quoted rest
      | st_escape (Some q) =>
          if negb (c =? backslash)%char && negb (c =? q)%char
          then read_tokens (st_quote q) (snoc (snoc token backslash) c) quoted rest
          else read_tokens (st_quote q) (snoc token c) quoted rest
      | st_word =>
          if is_whitespace c then
            if nonempty token || quoted
            then option_map (cons token) (read_tokens st_space EmptyString false rest)
            else read_tokens st_space token quoted rest
          else if is_quote c then read_tokens (st_quote c) token quoted rest
          else if is_escape c then read_tokens (st_escape None) token quoted rest
          else read_tokens st_word (snoc token c) quoted rest
      end
  end.

Definition shlex_split (s : string) : option (list string) :=
  read_tokens st_space EmptyString false (list_ascii_of_string s).

(** ** ShellBotPTY *)

Definition tcgetattr (w : world) (fd : Z) : M termios :=
  call (EvTcgetattr fd)
       (match w_stdin_tty w with
        | Some a => Ok a
        | None => Err (TermiosError ENOTTY)
        end).

(** [os.execvp] and [os.execlp]: on success the process image is replaced
    and nothing of the caller runs any more. *)
Definition exec (w : world) (file : string) (argv : list string) : M Z :=
  emit (EvExec file argv (w_exec w)) ;;
  match w_exec w with
  | None => fun b => (Halt (Replaced file argv), b, [])
  | Some e => raise e
  end.

(** The [pid == 0] branch of [run] (lines 48-61). *)
Definition child (w : world) : M Z :=
  emit (EvSetenv "TERM" "xterm-256color") ;;
  cmd <- get_command ;;
  args <- match shlex_split cmd with
          | Some args => ret args
          | None => raise ValueError
          end ;;
  if (1 <? List.length args)%nat
  then exec w (hd EmptyString args) args
  else exec w "bash" ["bash"; "-c"; cmd]%string.

Inductive ctl : Type := Next | Break.

Definition select {S} (rfds : list Z) (p : poll) : Mon S (list (Z * io_resp)) :=
  emit (EvSelect rfds POLL_MS
          (match p with Ok l => Ok (map fst l) | Err e => Err e end)) ;;
  of_result p.

Definition is_master (mfd : option Z) (fd : Z) : bool :=
  match mfd with Some m => fd =? m | None => false end.

(** The body of [for fd in ready_fds] (lines 101-126). *)
Definition on_ready (fd : Z) (io : io_resp) : M ctl :=
  mfd <- get_master_fd ;;
  if fd =? stdin_fd then
    try_except
      (data <- call (EvRead stdin_fd CHUNK) (io_read io) ;;
       match data with
       | [] => ret Next
       | _ => m <- as_int mfd ;;
              call (EvWrite m data) (io_write io) ;;
              ret Next
       end)
      (fun e => if is_OSError e
                then Some (if negb (errno_of e =? EAGAIN) then ret Break else ret Next)
                else None)
  else if is_master mfd fd then
    try_except
      (m <- as_int mfd ;;
       data <- call (EvRead m CHUNK) (io_read io) ;;
       match data with
       | [] => set_running false ;; ret Break
       | _ => call (EvWrite stdout_fd data) (io_write io) ;;
              call EvFlush (io_flush io) ;;
              ret Next
       end)
      (fun e => if is_OSError e
                then Some (set_running false ;; ret Break)
                else None)
  else ret Next.

(** [for fd in ready_fds: ...]; [break] leaves this loop only. *)
Fixpoint for_ready (ready : list (Z * io_resp)) : M unit :=
  match ready with
  | [] => ret tt
  | (fd, io) :: rest =>
      c <- on_ready fd io ;;
      match c with
      | Break => ret tt
      | Next => for_ready rest
      end
  end.

(** The body of [while self.running] (lines 95-134): [Break] leaves the
    while loop. *)
Definition iteration (p : poll) : M ctl :=
  try_except
    (mfd <- get_master_fd ;;
     m <- as_int mfd ;;
     ready <- select [stdin_fd; m] p ;;
     for_ready ready ;;
     ret Next)
    (fun e => if is_OSError e || is_KeyboardInterrupt e
              then Some (set_running false ;; ret Break)
              else if is_Exception e
                   then Some (set_running false ;; ret Break)
                   else None).

(** [while self.running: ...] (lines 94-134), one element of the script per
    iteration. *)
Fixpoint forward_loop (polls : list poll) : M unit :=
  fun b =>
    if running b then
      match polls with
      | [] => (Halt Polling, b, [])
      | p :: rest =>
          (c <- iteration p ;;
           match c with
           | Break => ret tt
           | Next => forward_loop rest
           end) b
      end
    else (Val tt, b, []).

(** "Wait for child process" (lines 136-141). *)
Definition wait_child (w : world) : M Z :=
  try_except
    (p <- get_pid ;;
     n <- as_int p ;;
     status <- call (EvWaitpid n 0) (w_waitpid w) ;;
     ret (WEXITSTATUS status))
    (fun e => if is_ChildProcessError e then Some (ret 1) else None).

Definition _forward_io (w : world) : M Z :=
  fl <- call (EvGetfl stdin_fd) (w_getfl w) ;;
  call (EvSetfl stdin_fd (Z.lor fl O_NONBLOCK)) (w_setfl w) ;;
  forward_loop (w_polls w) ;;
  wait_child w.

(** Python truth value of an attribute that is None or an int. *)
Definition truthy (o : option Z) : bool :=
  match o with Some n => negb (n =? 0) | None => false end.

Definition _cleanup (w : world) : M unit :=
  mfd <- get_master_fd ;;
  (if truthy mfd then
     try_except (m <- as_int mfd ;; call (EvClose m) (w_close w))
                (fun _ => Some (ret tt)) ;;
     set_master_fd None
   else ret tt) ;;
  p <- get_pid ;;
  (if truthy p then
     try_except (n <- as_int p ;; call (EvKill n SIGTERM) (w_kill w))
                (fun _ => Some (ret tt)) ;;
     set_pid None
   else ret tt).

(** The parent branch of [run] (lines 64-77). *)
Definition parent (w : world) (old_termios : termios) (p m : Z) : M Z :=
  set_pid (Some p) ;;
  set_master_fd (Some m) ;;
  try_finally
    (call (EvSetraw stdin_fd) (w_setraw w) ;;
     _forward_io w)
    (call (EvTcsetattr stdin_fd TCSADRAIN old_termios) (w_tcsetattr w)).

(** [run]. The [print] of the handler (line 80) can raise like any other
    call; [pr] is what it answers. An exception raised inside the [except]
    clause is not caught by it and leaves [run] after the [finally]. *)
Definition run_printing (pr : result unit) (w : world) : M Z :=
  try_finally
    (try_except
       (old_termios <- tcgetattr w stdin_fd ;;
        pm <- call EvFork (w_fork w) ;;
        if fst pm =? 0
        then child w
        else parent w old_termios (fst pm) (snd pm))
       (fun e => if is_Exception e
                 then Some (emit (EvPrintErr e) ;; of_result pr ;; ret 1)
                 else None))
    (_cleanup w).

(** [run] when standard error takes the message. *)
Definition run (w : world) : M Z := run_printing (Ok tt) w.

(** [main]: [bot = ShellBotPTY(args.command); return bot.run()]. *)
Definition main (w : world) (cmd : string) : res Z * ShellBotPTY * list event :=
  run w (init cmd).

Definition outcome {S A} (x : res A * S * list event) : res A := fst (fst x).
Definition final {S A} (x : res A * S * list event) : S := snd (fst x).
Definition events {S A} (x : res A * S * list event) : list event := snd x.

(** ** Reading a trace *)

Definition is_restore (e : event) : bool :=
  match e with EvTcsetattr _ _ _ _ => true | _ => false end.
Definition is_close (e : event) : bool :=
  match e with EvClose _ _ => true | _ => false end.
Definition is_fork (e : event) : bool :=
  match e with EvFork _ => true | _ => false end.
Definition is_setraw (e : event) : bool :=
  match e with EvSetraw _ _ => true | _ => false end.
Definition is_select (e : event) : bool :=
  match e with EvSelect _ _ _ => true | _ => false end.
Definition is_read (e : event) : bool :=
  match e with EvRead _ _ _ => true | _ => false end.
Definition is_write (e : event) : bool :=
  match e with EvWrite _ _ _ => true | _ => false end.
Definition is_print (e : event) : bool :=
  match e with EvPrintErr _ => true | _ => false end.
Definition is_exec (e : event) : bool :=
  match e with EvExec _ _ _ => true | _ => false end.
(** select, read, write, flush: the calls of the forwarding loop. *)
Definition is_forwarding (e : event) : bool :=
  match e with
  | EvSelect _ _ _ | EvRead _ _ _ | EvWrite _ _ _ | EvFlush _ => true
  | _ => false
  end.

Definition count (p : event -> bool) (tr : list event) : nat :=
  List.length (filter p tr).

(** The attributes of the real terminal after a trace: a successful
    [tty.setraw] applies the raw discipline, a successful [tcsetattr]
    installs its argument. *)
Definition term_step (w : world) (a : termios) (e : event) : termios :=
  match e with
  | EvSetraw _ (Ok _) => w_raw w a
  | EvTcsetattr _ _ a' (Ok _) => a'
  | _ => a
  end.

Definition terminal_after (w : world) (a0 : termios) (tr : list event) : termios :=
  fold_left (term_step w) tr a0.

Definition is_nil {A} (l : list A) : bool :=
  match l with [] => true | _ => false end.

(** The chunks that successful reads on [fd] returned (a read of zero bytes
    returns no chunk), and the chunks handed to [os.write] on [fd] whatever
    the call answered, both in the order of the trace. *)
Definition chunks_read (fd : Z) (tr : list event) : list bytes :=
  flat_map (fun e => match e with
                     | EvRead f _ (Ok (c :: d)) => if f =? fd then [c :: d] else []
                     | _ => []
                     end) tr.

Definition chunks_offered (fd : Z) (tr : list event) : list bytes :=
  flat_map (fun e => match e with
                     | EvWrite f d _ => if f =? fd then [d] else []
                     | _ => []
                     end) tr.

(** The bytes that [os.write] took on [fd]: of each chunk, the prefix whose
    length the call returned; nothing of a chunk whose call raised. *)
Definition bytes_written (fd : Z) (tr : list event) : bytes :=
  flat_map (fun e => match e with
                     | EvWrite f d (Ok n) =>
                         if f =? fd then firstn (Z.to_nat n) d else []
                     | _ => []
                     end) tr.

(** Every [os.write] returned, and returned the length of its chunk. *)
Definition writes_complete (tr : list event) : bool :=
  forallb (fun e => match e with
                    | EvWrite _ d (Ok n) => n =? Z.of_nat (List.length d)
                    | EvWrite _ _ (Err _) => false
                    | _ => true
                    end) tr.

(** Every completed write to standard output is followed at once by a
    flush. *)
Fixpoint flushed (tr : list event) : bool :=
  match tr with
  | [] => true
  | EvWrite fd _ (Ok _) :: rest =>
      if fd =? stdout_fd
      then match rest with
           | EvFlush _ :: _ => flushed rest
           | _ => false
           end
      else flushed rest
  | _ :: rest => flushed rest
  end.

(** The observations after which the loop of a session with master
    descriptor [m] is over: a failed select; a read of zero bytes, or a
    failed read, on a descriptor other than stdin; a failed flush; a failed
    write to a descriptor other than [m]; and any call that raised something
    that is not an OSError (an interrupt, for one). *)
Definition stops (m : Z) (e : event) : bool :=
  match e with
  | EvSelect _ _ (Err _) => true
  | EvRead fd _ (Ok data) => negb (fd =? stdin_fd) && is_nil data
  | EvRead fd _ (Err x) => negb (fd =? stdin_fd) || negb (is_OSError x)
  | EvWrite fd _ (Err x) => negb (fd =? m) || negb (is_OSError x)
  | EvFlush (Err _) => true
  | _ => false
  end.

(** Nothing follows the first such observation. *)
Fixpoint stop_last (m : Z) (tr : list event) : bool :=
  match tr with
  | [] => true
  | e :: rest => if stops m e then is_nil rest else stop_last m rest
  end.

(** The call was interrupted: it raised KeyboardInterrupt. *)
Definition interrupted (e : event) : bool :=
  match e with
  | EvSelect _ _ (Err KeyboardInterrupt)
  | EvRead _ _ (Err KeyboardInterrupt)
  | EvWrite _ _ (Err KeyboardInterrupt)
  | EvFlush (Err KeyboardInterrupt) => true
  | _ => false
  end.

(** A read on [m] that returned zero bytes. *)
Definition is_eof (m : Z) (e : event) : bool :=
  match e with
  | EvRead fd _ (Ok []) => fd =? m
  | _ => false
  end.

(** No select, read, write or flush after a close. *)
Fixpoint no_io_after_close (tr : list event) : bool :=
  match tr with
  | [] => true
  | EvClose _ _ :: rest => forallb (fun e => negb (is_forwarding e)) rest
                           && no_io_after_close rest
  | _ :: rest => no_io_after_close rest
  end.

(** ** Sample worlds

    Closed inputs on which the sessions are evaluated. *)

Definition attrs0 : termios :=
  mk_termios 17664 5 191 35387 15 15 [3; 28; 127; 21; 4; 0; 1].

(** A raw discipline: input and output processing, echo, canonical mode and
    signal keys off, eight-bit characters. *)
Definition raw0 (a : termios) : termios :=
  mk_termios (Z.ldiff (iflag a) 1330) (Z.ldiff (oflag a) 1)
             (Z.lor (Z.ldiff (cflag a) 304) 48) (Z.ldiff (lflag a) 32779)
             (ispeed a) (ospeed a) (cc a).

(** A read that returns [d]; a write of it is taken whole. *)
Definition io_data (d : bytes) : io_resp :=
  mk_io (Ok d) (Ok (Z.of_nat (List.length d))) (Ok tt).
Definition io_eof : io_resp := io_data [].
Definition io_read_error (e : exn) : io_resp := mk_io (Err e) (Ok 0) (Ok tt).

(** A session on a terminal: child 4242 behind master descriptor 3, every
    call succeeds, the loop sees [polls], the wait returns [status]. *)
Definition session (polls : list poll) (status : result Z) : world :=
  {| w_stdin_tty := Some attrs0; w_raw := raw0;
     w_fork := Ok (4242, 3); w_exec := None;
     w_setraw := Ok tt; w_getfl := Ok 2; w_setfl := Ok tt;
     w_polls := polls; w_waitpid := status;
     w_tcsetattr := Ok tt; w_close := Ok tt; w_kill := Ok tt |}.

(** The user types "a", the child answers "b" and exits with 42. *)
Definition world_exit42 : world :=
  session [Ok [(0, io_data [x61]); (3, io_data [x62])]; Ok [(3, io_eof)]]
          (Ok (status_exited 42)).

(** The child is killed by SIGKILL (signal 9). *)
Definition world_sigkill : world :=
  session [Ok [(3, io_eof)]] (Ok (status_signaled 9 false)).

(** The child was reaped by someone else. *)
Definition world_reaped : world :=
  session [Ok [(3, io_eof)]] (Err (OSError ECHILD)).

(** pty.fork fails with ENOMEM on a terminal. *)
Definition world_fork_fails : world :=
  {| w_stdin_tty := Some attrs0; w_raw := raw0;
     w_fork := Err (OSError 12); w_exec := None;
     w_setraw := Ok tt; w_getfl := Ok 2; w_setfl := Ok tt;
     w_polls := []; w_waitpid := Ok 0;
     w_tcsetattr := Ok tt; w_close := Ok tt; w_kill := Ok tt |}.

(** Standard input is a pipe. *)
Definition world_no_tty : world :=
  {| w_stdin_tty := None; w_raw := raw0;
     w_fork := Ok (4242, 3); w_exec := None;
     w_setraw := Ok tt; w_getfl := Ok 2; w_setfl := Ok tt;
     w_polls := []; w_waitpid := Ok 0;
     w_tcsetattr := Ok tt; w_close := Ok tt; w_kill := Ok tt |}.

(** The process that pty.fork returns 0 to; exec succeeds. *)
Definition world_child : world :=
  {| w_stdin_tty := Some attrs0; w_raw := raw0;
     w_fork := Ok (0, -1); w_exec := None;
     w_setraw := Ok tt; w_getfl := Ok 2; w_setfl := Ok tt;
     w_polls := []; w_waitpid := Ok 0;
     w_tcsetattr := Ok tt; w_close := Ok tt; w_kill := Ok tt |}.

(** A read on stdin fails with EIO; on the next poll the user types "x";
    then the child exits with 0. *)
Definition world_stdin_eio : world :=
  session [Ok [(0, io_read_error (OSError EIO))];
           Ok [(0, io_data [x78])];
           Ok [(3, io_eof)]]
          (Ok (status_exited 0)).

(** The user types "a" and the write of it to the master fails with EAGAIN;
    then the user types "c", which is written; then the child exits with 0. *)
Definition world_write_eagain : world :=
  session [Ok [(0, mk_io (Ok [x61]) (Err (OSError EAGAIN)) (Ok tt))];
           Ok [(0, io_data [x63])];
           Ok [(3, io_eof)]]
          (Ok (status_exited 0)).

(** The child prints "hi"; the write to standard output takes one byte of
    the two; then the child exits with 0. *)
Definition world_short_write : world :=
  session [Ok [(3, mk_io (Ok [x68; x69]) (Ok 1) (Ok tt))];
           Ok [(3, io_eof)]]
          (Ok (status_exited 0)).

(** The first select is interrupted; the child then exits with 0. *)
Definition world_interrupt : world :=
  session [Err KeyboardInterrupt] (Ok (status_exited 0)).

(** ** MinimalShellBot *)

(** A [subprocess.Popen] object: the descriptors of the three pipes and
    the return code once it has been observed. *)
Record Popen : Type := mk_popen {
  p_stdin : Z; p_stdout : Z; p_stderr : Z;
  returncode : option Z
}.

Record MinimalShellBot : Type := mk_minimal {
  m_command : string;
  process : option Popen
}.

(** [MinimalShellBot.__init__] *)
Definition minimal_init (cmd : string) : MinimalShellBot :=
  {| m_command := cmd; process := None |}.

(** One evaluation of the loop condition and the iteration that follows:
    what [poll()] observes, and what [select] answers if the child is still
    alive. *)
Record mstep : Type := mk_mstep {
  ms_poll : option Z;
  ms_select : poll
}.

Record mworld : Type := mk_mworld {
  mw_popen : result (Z * Z * Z);      (* Popen: descriptors of stdin, stdout, stderr pipes *)
  mw_getfl : Z -> result Z;           (* fcntl F_GETFL, per descriptor *)
  mw_setfl : Z -> result unit;        (* fcntl F_SETFL, per descriptor *)
  mw_steps : list mstep;
  mw_wait : result Z;                 (* process.wait() after the loop *)
  mw_final_poll : option Z;           (* process.poll() in the finally block *)
  mw_terminate : result unit;
  mw_final_wait : result Z            (* process.wait() in the finally block *)
}.

Definition MM (A : Type) : Type := Mon MinimalShellBot A.

Definition get_process : MM (option Popen) := fun b => (Val (process b), b, []).

Definition set_process (p : option Popen) : MM unit :=
  fun b => (Val tt, {| m_command := m_command b; process := p |}, []).

(** A method call on [self.process]; on None it is an AttributeError, which
    is an Exception like TypeError. *)
Definition the_process : MM Popen :=
  p <- get_process ;;
  match p with Some pr => ret pr | None => raise TypeError end.

Definition set_returncode (c : option Z) : MM unit :=
  pr <- the_process ;;
  set_process (Some {| p_stdin := p_stdin pr; p_stdout := p_stdout pr;
                       p_stderr := p_stderr pr; returncode := c |}).

(** [Popen.poll()]: the recorded return code if there is one, else what the
    operating system reports now. *)
Definition process_poll (obs : option Z) : MM (option Z) :=
  pr <- the_process ;;
  match returncode pr with
  | Some c => emit (EvPoll (Some c)) ;; ret (Some c)
  | None => emit (EvPoll obs) ;; set_returncode obs ;; ret obs
  end.

(** [Popen.wait()]: the recorded return code if there is one, else block. *)
Definition process_wait (obs : result Z) : MM Z :=
  pr <- the_process ;;
  match returncode pr with
  | Some c => emit (EvProcWait (Ok c)) ;; ret c
  | None => c <- call EvProcWait obs ;; set_returncode (Some c) ;; ret c
  end.

(** [sys.stdout.buffer.write(data); sys.stdout.buffer.flush()] *)
Definition stream_forward (s : stream) (data : bytes) (io : io_resp) : MM unit :=
  call (EvStreamWrite s data) (io_write io) ;;
  call (EvStreamFlush s) (io_flush io).

(** The body of [for fd in ready_fds] (lines 66-81). *)
Definition minimal_on_ready (so se fd : Z) (io : io_resp) : MM unit :=
  if fd =? so then
    try_except
      (data <- call (EvRead so CHUNK) (io_read io) ;;
       match data with
       | [] => ret tt
       | _ => stream_forward Sys_stdout data io
       end)
      (fun e => if is_OSError e then Some (ret tt) else None)
  else if fd =? se then
    try_except
      (data <- call (EvRead se CHUNK) (io_read io) ;;
       match data with
       | [] => ret tt
       | _ => stream_forward Sys_stderr data io
       end)
      (fun e => if is_OSError e then Some (ret tt) else None)
  else ret tt.

Fixpoint minimal_for_ready (so se : Z) (ready : list (Z * io_resp)) : MM unit :=
  match ready with
  | [] => ret tt
  | (fd, io) :: rest =>
      minimal_on_ready so se fd io ;;
      minimal_for_ready so se rest
  end.

(** [while self.process.poll() is None: ...] (lines 56-81). *)
Fixpoint simple_loop (so se : Z) (steps : list mstep) : MM unit :=
  match steps with
  | [] =>
      pr <- the_process ;;
      match returncode pr with
      | Some c => emit (EvPoll (Some c))
      | None => fun b => (Halt Polling, b, [])
      end
  | s :: rest =>
      rc <- process_poll (ms_poll s) ;;
      match rc with
      | Some _ => ret tt
      | None =>
          sel <- try_except
                   (ready <- select [so; se] (ms_select s) ;; ret (Some ready))
                   (fun e => if is_OSError e || is_KeyboardInterrupt e
                             then Some (ret None)
                             else None) ;;
          match sel with
          | None => ret tt
          | Some ready =>
              minimal_for_ready so se ready ;;
              simple_loop so se rest
          end
      end
  end.

(** [for fd in [stdout_fd, stderr_fd]: fcntl ...] (lines 52-54). *)
Definition set_nonblocking (w : mworld) (fd : Z) : MM unit :=
  fl <- call (EvGetfl fd) (mw_getfl w fd) ;;
  call (EvSetfl fd (Z.lor fl O_NONBLOCK)) (mw_setfl w fd).

Definition _simple_forward (w : mworld) : MM Z :=
  pr <- the_process ;;
  let stdout_fd := p_stdout pr in
  let stderr_fd := p_stderr pr in
  set_nonblocking w stdout_fd ;;
  set_nonblocking w stderr_fd ;;
  simple_loop stdout_fd stderr_fd (mw_steps w) ;;
  process_wait (mw_wait w).

(** [subprocess.Popen(self.command, shell=True, stdin=PIPE, stdout=PIPE,
    stderr=PIPE, bufsize=0)] *)
Definition popen (w : mworld) : MM unit :=
  cmd <- (fun b => (Val (m_command b), b, [])) ;;
  fds <- call (EvPopen cmd) (mw_popen w) ;;
  set_process (Some {| p_stdin := fst (fst fds); p_stdout := snd (fst fds);
                       p_stderr := snd fds; returncode := None |}).

Definition minimal_finally (w : mworld) : MM unit :=
  p <- get_process ;;
  match p with
  | None => ret tt
  | Some _ =>
      rc <- process_poll (mw_final_poll w) ;;
      match rc with
      | None =>
          call EvTerminate (mw_terminate w) ;;
          process_wait (mw_final_wait w) ;;
          ret tt
      | Some _ => ret tt
      end
  end.

(** [MinimalShellBot.run]; [pr] is what the [print] of the handler (line 36)
    answers. *)
Definition minimal_run_printing (pr : result unit) (w : mworld) : MM Z :=
  try_finally
    (try_except
       (popen w ;; _simple_forward w)
       (fun e => if is_Exception e
                 then Some (emit (EvPrintErr e) ;; of_result pr ;; ret 1)
                 else None))
    (minimal_finally w).

(** [MinimalShellBot.run] when standard error takes the message. *)
Definition minimal_run (w : mworld) : MM Z := minimal_run_printing (Ok tt) w.

(** [main] of the minimal wrapper: [bot = MinimalShellBot(args.command);
    sys.exit(bot.run())]. *)
Definition minimal_main (w : mworld) (cmd : string)
  : res Z * MinimalShellBot * list event :=
  minimal_run w (minimal_init cmd).

(** os.write and os.close, on any descriptor. *)
Definition is_os_write_or_close (e : event) : bool :=
  match e with EvWrite _ _ _ | EvClose _ _ => true | _ => false end.

(** Every read is on the descriptor [so] or [se]. *)
Definition reads_only (so se : Z) (e : event) : bool :=
  match e with EvRead fd _ _ => (fd =? so) || (fd =? se) | _ => true end.

(** The chunks handed to the [write] of the buffered stream [s], whatever
    the call answered. *)
Definition chunks_buffered (s : stream) (tr : list event) : list bytes :=
  flat_map (fun e => match e with
                     | EvStreamWrite Sys_stdout d _ =>
                         match s with Sys_stdout => [d] | Sys_stderr => [] end
                     | EvStreamWrite Sys_stderr d _ =>
                         match s with Sys_stderr => [d] | Sys_stdout => [] end
                     | _ => []
                     end) tr.

(** The bytes that the [write] of the stream [s] took: of each chunk, the
    prefix whose length the call returned; nothing of a chunk whose call
    raised. *)
Definition bytes_streamed (s : stream) (tr : list event) : bytes :=
  flat_map (fun e => match e with
                     | EvStreamWrite Sys_stdout d (Ok n) =>
                         match s with
                         | Sys_stdout => firstn (Z.to_nat n) d
                         | Sys_stderr => []
                         end
                     | EvStreamWrite Sys_stderr d (Ok n) =>
                         match s with
                         | Sys_stderr => firstn (Z.to_nat n) d
                         | Sys_stdout => []
                         end
                     | _ => []
                     end) tr.

(** Every stream [write] returned, and returned the length of its chunk. *)
Definition stream_writes_complete (tr : list event) : bool :=
  forallb (fun e => match e with
                    | EvStreamWrite _ d (Ok n) => n =? Z.of_nat (List.length d)
                    | EvStreamWrite _ _ (Err _) => false
                    | _ => true
                    end) tr.

(** A child that prints "hi" on stdout, "!" on stderr, and exits with 3. *)
Definition mworld_hi : mworld :=
  {| mw_popen := Ok (5, 6, 8);
     mw_getfl := fun _ => Ok 0; mw_setfl := fun _ => Ok tt;
     mw_steps := [mk_mstep None (Ok [(6, io_data [x68; x69]); (8, io_data [x21])]);
                  mk_mstep (Some 3) (Ok [])];
     mw_wait := Ok 3; mw_final_poll := Some 3;
     mw_terminate := Ok tt; mw_final_wait := Ok 3 |}.

(** ** Specifications used by the proofs *)

Definition frame {A} (P : event -> bool) (b : ShellBotPTY)
           (x : res A * ShellBotPTY * list event) : Prop :=
  pid (final x) = pid b /\ master_fd (final x) = master_fd b /\
  command (final x) = command b /\ Forall (fun e => P e = true) (events x).

Definition ended {A} (x : res A * ShellBotPTY * list event) : Prop :=
  running (final x) = false \/ exists e, outcome x = Exn e.

Definition pipe (m : Z) (t : list event) : Prop :=
  chunks_read stdin_fd t = chunks_offered m t /\
  chunks_read m t = chunks_offered stdout_fd t /\
  flushed t = true.

(** What the loop lemmas establish about one run of the loop. *)
Record loop_spec (m : Z) (b : ShellBotPTY)
       (x : res unit * ShellBotPTY * list event) : Prop := {
  ls_pid : pid (final x) = pid b;
  ls_master : master_fd (final x) = master_fd b;
  ls_command : command (final x) = command b;
  ls_forwarding : Forall (fun e => is_forwarding e = true) (events x);
  ls_outcome : (outcome x = Val tt /\ running (final x) = false)
               \/ outcome x = Halt Polling;
  ls_stop_last : stop_last m (events x) = true;
  ls_stopped : existsb (stops m) (events x) = true -> outcome x = Val tt;
  ls_pipe : m <> stdin_fd -> m <> stdout_fd -> pipe m (events x)
}.

(** A session in which every call around the loop succeeds. *)
Definition healthy (w : world) (a : termios) (p m fl : Z) : Prop :=
  w_stdin_tty w = Some a /\ w_fork w = Ok (p, m) /\ p <> 0 /\
  w_setraw w = Ok tt /\ w_getfl w = Ok fl /\ w_setfl w = Ok tt /\
  w_tcsetattr w = Ok tt.

(** [keeps I P m]: started on an object that satisfies [I], the computation
    leaves an object that satisfies [I] and every call it records satisfies
    [P]. *)
Definition keeps {S A} (I : S -> Prop) (P : event -> bool) (m : Mon S A) : Prop :=
  forall b, I b -> I (final (m b)) /\ forallb P (events (m b)) = true.

(** Calls the minimal wrapper may make when the pipes of the child's stdout
    and stderr are [so] and [se]: no [os.write], no [os.close], and reads
    on [so] and [se] only. *)
Definition allowed (so se : Z) (e : event) : bool :=
  negb (is_os_write_or_close e) && reads_only so se e.

(** The pipes recorded in [self.process] are [so] and [se]. *)
Definition pipes (so se : Z) (b : MinimalShellBot) : Prop :=
  forall pr, process b = Some pr -> p_stdout pr = so /\ p_stderr pr = se.

(** ** More ways to read a trace *)

Definition is_kill (e : event) : bool :=
  match e with EvKill _ _ _ => true | _ => false end.
Definition is_setfl (e : event) : bool :=
  match e with EvSetfl _ _ _ => true | _ => false end.
Definition is_terminate (e : event) : bool :=
  match e with EvTerminate _ => true | _ => false end.

(** Every F_SETFL is on stdin and carries the O_NONBLOCK bit (bit 11). *)
Definition sets_nonblocking (e : event) : bool :=
  match e with
  | EvSetfl fd flags _ => (fd =? stdin_fd) && Z.testbit flags 11
  | _ => true
  end.

(** After an error message only the calls of [_cleanup] follow. *)
Fixpoint cleanup_only_after_print (tr : list event) : bool :=
  match tr with
  | [] => true
  | EvPrintErr _ :: rest => forallb (fun e => is_close e || is_kill e) rest
  | _ :: rest => cleanup_only_after_print rest
  end.

(** A character that the tokenizer copies into the current word. *)
Definition plain (c : ascii) : bool :=
  negb (is_whitespace c) && negb (is_quote c) && negb (is_escape c).

(** An answer that is a value or an OSError. *)
Definition mild {A} (r : result A) : bool :=
  match r with Ok _ => true | Err e => is_OSError e end.

(** A step of the minimal loop in which the child is alive, select
    succeeds, and no call of a handler raises anything but an OSError. *)
Definition calm (s : mstep) : bool :=
  match ms_poll s, ms_select s with
  | None, Ok ready =>
      forallb (fun x => mild (io_read (snd x)) && mild (io_write (snd x))
                        && mild (io_flush (snd x))) ready
  | _, _ => false
  end.

(** The pipes and the fcntl calls of the minimal wrapper succeed. *)
Definition minimal_up (w : mworld) (si so se : Z) : Prop :=
  mw_popen w = Ok (si, so, se) /\
  (exists fl, mw_getfl w so = Ok fl) /\ mw_setfl w so = Ok tt /\
  (exists fl, mw_getfl w se = Ok fl) /\ mw_setfl w se = Ok tt.

(** The loop as a pipe from the descriptor [so] to [sys.stdout.buffer] and
    from [se] to [sys.stderr.buffer]. *)
Definition minimal_pipe (so se : Z) (t : list event) : Prop :=
  chunks_read so t = chunks_buffered Sys_stdout t /\
  chunks_read se t = chunks_buffered Sys_stderr t.

(** [tkeeps I Q m]: started on an object that satisfies [I], the
    computation leaves an object that satisfies [I] and records a trace
    that satisfies [Q]. *)
Definition tkeeps {S A} (I : S -> Prop) (Q : list event -> Prop)
           (m : Mon S A) : Prop :=
  forall b, I b -> I (final (m b)) /\ Q (events (m b)).

(** The child exits with 3 while the wrapper polls; one OSError on the way. *)
Definition mworld_exit3 : mworld :=
  {| mw_popen := Ok (5, 6, 8);
     mw_getfl := fun _ => Ok 0; mw_setfl := fun _ => Ok tt;
     mw_steps := [mk_mstep None (Ok [(6, io_data [x68; x69]);
                                     (8, io_read_error (OSError EAGAIN))]);
                  mk_mstep (Some 3) (Ok [])];
     mw_wait := Ok 3; mw_final_poll := Some 3;
     mw_terminate := Ok tt; mw_final_wait := Ok 3 |}.

(** The process that pty.fork returns 0 to; exec fails with ENOENT. *)
Definition world_child_noexec : world :=
  {| w_stdin_tty := Some attrs0; w_raw := raw0;
     w_fork := Ok (0, -1); w_exec := Some (OSError 2);
     w_setraw := Ok tt; w_getfl := Ok 2; w_setfl := Ok tt;
     w_polls := []; w_waitpid := Ok 0;
     w_tcsetattr := Ok tt; w_close := Ok tt; w_kill := Ok tt |}.

(** The calls that the [try] block of the minimal wrapper can make. *)
Definition minimal_body_event (e : event) : bool :=
  match e with
  | EvPopen _ _ | EvGetfl _ _ | EvSetfl _ _ _ | EvPoll _ | EvSelect _ _ _
  | EvRead _ _ _ | EvStreamWrite _ _ _ | EvStreamFlush _ _ | EvProcWait _ => true
  | _ => false
  end.

(** The return code has not been observed yet. *)
Definition unreaped (b : MinimalShellBot) : Prop :=
  exists pr, process b = Some pr /\ returncode pr = None.

Definition reaped (c : Z) (b : MinimalShellBot) : Prop :=
  exists pr, process b = Some pr /\ returncode pr = Some c.

(** No condition on the bot. *)
Definition anybot (b : MinimalShellBot) : Prop := True.

(** The select of the minimal wrapper is interrupted, and so is the wait
    after the loop; the child is still alive in the finally block. *)
Definition mworld_interrupted : mworld :=
  {| mw_popen := Ok (5, 6, 8);
     mw_getfl := fun _ => Ok 0; mw_setfl := fun _ => Ok tt;
     mw_steps := [mk_mstep None (Err KeyboardInterrupt)];
     mw_wait := Err KeyboardInterrupt; mw_final_poll := None;
     mw_terminate := Ok tt; mw_final_wait := Ok (-15) |}.

(** Popen fails with ENOMEM. *)
Definition mworld_no_popen : mworld :=
  {| mw_popen := Err (OSError 12);
     mw_getfl := fun _ => Ok 0; mw_setfl := fun _ => Ok tt;
     mw_steps := []; mw_wait := Ok 0; mw_final_poll := None;
     mw_terminate := Ok tt; mw_final_wait := Ok 0 |}.

(** * Proofs *)

(** ** Evaluating the monad *)

Ltac munfold :=
  cbv beta iota zeta delta
    [outcome final events bind try_except try_finally call emit
     of_result ret raise as_int get_pid get_master_fd get_running
     get_command set_pid set_master_fd set_running select fst snd] in *.

Ltac break_match :=
  match goal with
  | |- context [match ?x with _ => _ end] =>
      lazymatch x with
      | context [match _ with _ => _ end] => fail
      | _ => destruct x eqn:?
      end
  end.

Ltac mcases := munfold; repeat (break_match; munfold).

(** ** What the forwarding loop leaves alone

    The loop touches [self.running] only, and issues nothing but select,
    read, write and flush. *)

Lemma frame_bind {A B} P (m : M A) (f : A -> M B) :
  (forall b, frame P b (m b)) ->
  (forall a b, frame P b (f a b)) ->
  forall b, frame P b (bind m f b).
Proof.
  intros Hm Hf b. unfold bind, frame.
  specialize (Hm b). destruct (m b) as [[r b1] t1].
  destruct r as [a| |]; try exact Hm.
  specialize (Hf a b1). destruct (f a b1) as [[r2 b2] t2].
  unfold frame, final, events in *; simpl in *.
  destruct Hm as (E1 & E2 & E3 & H1), Hf as (F1 & F2 & F3 & H2).
  repeat split; try congruence. apply Forall_app; auto.
Qed.

Lemma frame_try_except {A} P (m : M A) h :
  (forall b, frame P b (m b)) ->
  (forall e k, h e = Some k -> forall b, frame P b (k b)) ->
  forall b, frame P b (try_except m h b).
Proof.
  intros Hm Hh b. unfold try_except.
  specialize (Hm b). destruct (m b) as [[r b1] t1].
  destruct r as [a|e|]; try exact Hm.
  destruct (h e) as [k|] eqn:Hk; try exact Hm.
  specialize (Hh e k Hk b1). destruct (k b1) as [[r2 b2] t2].
  unfold frame, final, events in *; simpl in *.
  destruct Hm as (E1 & E2 & E3 & H1), Hh as (F1 & F2 & F3 & H2).
  repeat split; try congruence. apply Forall_app; auto.
Qed.

Lemma on_ready_frame fd io b : frame is_forwarding b (on_ready fd io b).
Proof.
  unfold frame, on_ready. mcases; simpl; repeat split; auto.
Qed.

Lemma for_ready_frame ready : forall b, frame is_forwarding b (for_ready ready b).
Proof.
  induction ready as [|[fd io] rest IH]; intros b.
  - unfold frame; simpl; auto.
  - simpl for_ready. apply frame_bind.
    + apply on_ready_frame.
    + intros [] b'; [apply IH | unfold frame; simpl; auto].
Qed.

Lemma iteration_frame p b : frame is_forwarding b (iteration p b).
Proof.
  unfold iteration. apply frame_try_except.
  - intros b0. unfold frame. munfold.
    destruct (master_fd b0) as [m|] eqn:Hm; simpl; auto.
    destruct p as [ready|e]; simpl; auto.
    pose proof (for_ready_frame ready b0) as H.
    destruct (for_ready ready b0) as [[r b1] t1].
    unfold frame, final, events in H; simpl in H.
    destruct H as (E1 & E2 & E3 & H).
    destruct r; simpl; repeat split; auto; try congruence;
      try (constructor; auto); rewrite ?app_nil_r; auto.
  - intros e k Hk b0.
    assert (k = (set_running false ;; ret Break)) as ->
        by (destruct (is_OSError e || is_KeyboardInterrupt e), (is_Exception e);
            congruence).
    unfold frame; simpl; auto.
Qed.

Lemma forward_loop_frame polls :
  forall b, frame is_forwarding b (forward_loop polls b).
Proof.
  induction polls as [|p rest IH]; intros b; simpl forward_loop;
    destruct (running b); try (unfold frame; simpl; auto; fail).
  apply frame_bind.
  - apply iteration_frame.
  - intros [] b'; [apply IH | unfold frame; simpl; auto].
Qed.

(** The loop never raises: every exception of an iteration is caught by one
    of the two handlers of the [while] body. *)
Lemma on_ready_no_halt fd io b h : outcome (on_ready fd io b) <> Halt h.
Proof. unfold on_ready. mcases; simpl; congruence. Qed.

Lemma for_ready_no_halt ready : forall b h, outcome (for_ready ready b) <> Halt h.
Proof.
  induction ready as [|[fd io] rest IH]; intros b h; simpl for_ready.
  - discriminate.
  - pose proof (on_ready_no_halt fd io b) as H1.
    unfold outcome, bind in *.
    destruct (on_ready fd io b) as [[r b1] t1]. simpl in H1.
    destruct r as [[]| |h']; simpl; try congruence.
    + specialize (IH b1 h). destruct (for_ready rest b1) as [[r2 b2] t2].
      exact IH.
    + intros E; inversion E; subst. eapply H1; eauto.
Qed.

Lemma iteration_returns p b : exists c, outcome (iteration p b) = Val c.
Proof.
  unfold iteration. munfold.
  destruct (master_fd b) as [m|]; simpl; eauto.
  destruct p as [ready|e]; simpl.
  - pose proof (for_ready_no_halt ready b) as Hh.
    destruct (for_ready ready b) as [[r b1] t1].
    destruct r as [[]|e|h]; simpl in *; eauto.
    + destruct e; simpl; eauto.
    + exfalso; apply (Hh h); reflexivity.
  - destruct e; simpl; eauto.
Qed.

Lemma iteration_break p b :
  outcome (iteration p b) = Val Break -> running (final (iteration p b)) = false.
Proof.
  unfold iteration. munfold.
  destruct (master_fd b) as [m|]; simpl; auto.
  destruct p as [ready|e]; simpl.
  - destruct (for_ready ready b) as [[r b1] t1].
    destruct r as [[]|e|h]; simpl; try discriminate.
    destruct e; simpl; auto.
  - destruct e; simpl; auto.
Qed.

(** The loop ends with the flag down, or is still polling when the script
    ends. *)
Lemma forward_loop_outcome polls :
  forall b,
    (outcome (forward_loop polls b) = Val tt /\
     running (final (forward_loop polls b)) = false) \/
    outcome (forward_loop polls b) = Halt Polling.
Proof.
  induction polls as [|p rest IH]; intros b; simpl forward_loop;
    destruct (running b) eqn:Hr; simpl; auto.
  destruct (iteration_returns p b) as [c Hc].
  pose proof (iteration_break p b) as Hb.
  unfold bind, outcome, final in *.
  destruct (iteration p b) as [[r b1] t1]. simpl in *. subst r.
  destruct c.
  - specialize (IH b1). destruct (forward_loop rest b1) as [[r2 b2] t2].
    exact IH.
  - left; simpl; auto.
Qed.

(** ** The observations that end the loop *)

Lemma existsb_false_app_stop m t1 t2 :
  existsb (stops m) t1 = false ->
  stop_last m (t1 ++ t2) = stop_last m t2 /\
  existsb (stops m) (t1 ++ t2) = existsb (stops m) t2.
Proof.
  induction t1 as [|e t1 IH]; simpl; auto.
  destruct (stops m e); simpl; try discriminate. auto.
Qed.

Lemma on_ready_stops m fd io b :
  master_fd b = Some m ->
  let x := on_ready fd io b in
  stop_last m (events x) = true /\
  (existsb (stops m) (events x) = true ->
   (outcome x = Val Break /\ running (final x) = false) \/
   exists e, outcome x = Exn e).
Proof.
  intros Hm. unfold on_ready. munfold. rewrite Hm.
  mcases; simpl in *; rewrite ?Heqb0, ?Heqb1, ?Heqb2; simpl;
    split; auto; try discriminate; eauto;
    rewrite ?Z.eqb_refl, ?andb_false_r, ?andb_true_r, ?orb_false_r; simpl;
    try discriminate; auto;
    repeat match goal with |- context [if ?c then _ else _] => destruct c end;
    auto.
Qed.

Lemma for_ready_stops m ready :
  forall b,
    master_fd b = Some m ->
    let x := for_ready ready b in
    stop_last m (events x) = true /\
    (existsb (stops m) (events x) = true -> ended x).
Proof.
  induction ready as [|[fd io] rest IH]; intros b Hm; simpl for_ready.
  - simpl; split; auto; discriminate.
  - pose proof (on_ready_stops m fd io b Hm) as [H1 H2].
    pose proof (on_ready_frame fd io b) as (_ & Hf & _).
    unfold bind, ended, outcome, final, events in *.
    destruct (on_ready fd io b) as [[r b1] t1]. simpl in *.
    destruct r as [[]|e|h]; simpl; rewrite ?app_nil_r.
    + assert (existsb (stops m) t1 = false) as Hn.
      { destruct (existsb (stops m) t1); auto.
        destruct H2 as [[? _]|[? ?]]; auto; discriminate. }
      specialize (IH b1 ltac:(congruence)).
      destruct (for_ready rest b1) as [[r2 b2] t2]. simpl in *.
      destruct (existsb_false_app_stop m t1 t2 Hn) as [-> ->]. exact IH.
    + split; auto. intros H. destruct (H2 H) as [[_ ?]|[? ?]]; auto; discriminate.
    + split; auto. eauto.
    + split; auto. intros H. destruct (H2 H) as [[? _]|[? ?]]; discriminate.
Qed.

Lemma iteration_stops m p b :
  master_fd b = Some m ->
  let x := iteration p b in
  stop_last m (events x) = true /\
    (existsb (stops m) (events x) = true -> running (final x) = false).
Proof.
  intros Hm. unfold iteration. munfold. rewrite Hm.
  destruct p as [ready|e]; simpl.
  - pose proof (for_ready_stops m ready b Hm) as [H1 H2].
    unfold ended, outcome, final, events in *.
    destruct (for_ready ready b) as [[r b1] t1]. simpl in *.
    destruct r as [[]|e|h]; simpl; rewrite ?app_nil_r; split; auto.
    + intros H. destruct (H2 H) as [?|[? ?]]; auto; discriminate.
    + destruct e; simpl; rewrite ?app_nil_r; auto.
    + destruct e; simpl; auto.
    + intros H. destruct (H2 H) as [?|[? ?]]; auto; discriminate.
  - destruct e; simpl; auto.
Qed.

Lemma forward_loop_stops m polls :
  forall b,
    master_fd b = Some m ->
    let x := forward_loop polls b in
    stop_last m (events x) = true /\
    (existsb (stops m) (events x) = true ->
     outcome x = Val tt /\ running (final x) = false).
Proof.
  induction polls as [|p rest IH]; intros b Hm; simpl forward_loop;
    destruct (running b) eqn:Hr; simpl; try (split; [auto | discriminate]).
  pose proof (iteration_stops m p b Hm) as [H1 H2].
  pose proof (iteration_frame p b) as (_ & Hf & _).
  pose proof (iteration_break p b) as Hb.
  destruct (iteration_returns p b) as [c Hc].
  unfold bind, outcome, final, events in *.
  destruct (iteration p b) as [[r b1] t1]. simpl in *. subst r.
  destruct c; simpl; rewrite ?app_nil_r.
  - destruct (existsb (stops m) t1) eqn:Hs.
    + specialize (H2 eq_refl).
      destruct rest; simpl; rewrite H2; simpl; rewrite ?app_nil_r; auto.
    + specialize (IH b1 ltac:(congruence)).
      destruct (forward_loop rest b1) as [[r2 b2] t2]. simpl in *.
      destruct (existsb_false_app_stop m t1 t2 Hs) as [-> ->]. exact IH.
  - split; auto.
Qed.


(** ** The loop as a byte pipe *)

Lemma flushed_app t1 t2 :
  flushed t1 = true -> flushed (t1 ++ t2) = flushed t2.
Proof.
  induction t1 as [|e t1 IH]; simpl; auto.
  destruct e; auto.
  destruct r; auto.
  destruct (fd =? stdout_fd); auto.
  destruct t1 as [|e' t1]; simpl; try discriminate.
  destruct e'; try discriminate. exact IH.
Qed.

Lemma pipe_nil m : pipe m [].
Proof. unfold pipe; simpl; auto. Qed.

Lemma pipe_app m t1 t2 : pipe m t1 -> pipe m t2 -> pipe m (t1 ++ t2).
Proof.
  unfold pipe, chunks_read, chunks_offered.
  intros (A1 & B1 & C1) (A2 & B2 & C2).
  rewrite !flat_map_app, flushed_app by assumption.
  rewrite A1, A2, B1, B2. auto.
Qed.

Lemma on_ready_pipe m fd io b :
  master_fd b = Some m -> m <> stdin_fd -> m <> stdout_fd ->
  pipe m (events (on_ready fd io b)).
Proof.
  intros Hm H0 H1.
  assert ((stdin_fd =? m) = false) as E1 by (apply Z.eqb_neq; congruence).
  assert ((stdout_fd =? m) = false) as E2 by (apply Z.eqb_neq; congruence).
  assert ((m =? stdin_fd) = false) as E3 by (apply Z.eqb_neq; congruence).
  assert ((m =? stdout_fd) = false) as E4 by (apply Z.eqb_neq; congruence).
  unfold on_ready. munfold. rewrite Hm.
  assert ((stdin_fd =? stdout_fd) = false) as E5 by reflexivity.
  assert ((stdout_fd =? stdin_fd) = false) as E6 by reflexivity.
  mcases; unfold pipe, chunks_read, chunks_offered;
    cbn [flat_map app flushed];
    rewrite ?Z.eqb_refl, ?E1, ?E2, ?E3, ?E4, ?E5, ?E6;
    cbn [flat_map app flushed]; auto.
Qed.

Lemma for_ready_pipe m ready :
  forall b,
    master_fd b = Some m -> m <> stdin_fd -> m <> stdout_fd ->
    pipe m (events (for_ready ready b)).
Proof.
  induction ready as [|[fd io] rest IH]; intros b Hm H0 H1; simpl for_ready.
  - apply pipe_nil.
  - pose proof (on_ready_pipe m fd io b Hm H0 H1) as Hp.
    pose proof (on_ready_frame fd io b) as (_ & Hf & _).
    unfold bind, final, events in *.
    destruct (on_ready fd io b) as [[r b1] t1]. simpl in *.
    destruct r as [[]|e|h]; simpl; rewrite ?app_nil_r; auto.
    specialize (IH b1 ltac:(congruence) H0 H1).
    destruct (for_ready rest b1) as [[r2 b2] t2]. simpl in *.
    apply pipe_app; auto.
Qed.

Lemma iteration_pipe m p b :
  master_fd b = Some m -> m <> stdin_fd -> m <> stdout_fd ->
  pipe m (events (iteration p b)).
Proof.
  intros Hm H0 H1. unfold iteration. munfold. rewrite Hm.
  destruct p as [ready|e]; simpl.
  - pose proof (for_ready_pipe m ready b Hm H0 H1) as Hp.
    unfold events in *.
    destruct (for_ready ready b) as [[r b1] t1]. simpl in *.
    assert (pipe m (EvSelect [stdin_fd; m] POLL_MS (Ok (map fst ready)) :: t1)) as Hq
        by (apply (pipe_app m [_] t1); auto; unfold pipe; simpl; auto).
    destruct r as [[]|e|h]; simpl; rewrite ?app_nil_r; auto.
    destruct e; simpl; rewrite ?app_nil_r; auto.
  - destruct e; unfold pipe; simpl; auto.
Qed.

Lemma forward_loop_pipe m polls :
  forall b,
    master_fd b = Some m -> m <> stdin_fd -> m <> stdout_fd ->
    pipe m (events (forward_loop polls b)).
Proof.
  induction polls as [|p rest IH]; intros b Hm H0 H1; simpl forward_loop;
    destruct (running b); try apply pipe_nil.
  pose proof (iteration_pipe m p b Hm H0 H1) as Hp.
  pose proof (iteration_frame p b) as (_ & Hf & _).
  unfold bind, final, events in *.
  destruct (iteration p b) as [[r b1] t1]. simpl in *.
  destruct r as [[]|e|h]; simpl; rewrite ?app_nil_r; auto.
  specialize (IH b1 ltac:(congruence) H0 H1).
  destruct (forward_loop rest b1) as [[r2 b2] t2]. simpl in *.
  apply pipe_app; auto.
Qed.

(** ** Sessions *)

Ltac run_unfold :=
  cbv beta iota zeta delta
    [main run run_printing parent child exec _forward_io wait_child _cleanup tcgetattr
     truthy init command pid master_fd running
     outcome final events bind try_except try_finally call emit
     of_result ret raise as_int get_pid get_master_fd get_running
     get_command set_pid set_master_fd set_running select fst snd].

Lemma interrupted_stops m e : interrupted e = true -> stops m e = true.
Proof.
  destruct e; simpl; try discriminate;
    destruct r as [?|[]]; simpl; try discriminate;
    rewrite ?orb_true_r; auto.
Qed.

Lemma existsb_interrupted_stops m t :
  existsb interrupted t = true -> existsb (stops m) t = true.
Proof.
  induction t as [|e t IH]; simpl; auto.
  destruct (interrupted e) eqn:He; simpl; intros H.
  - rewrite (interrupted_stops m e He); auto.
  - rewrite (IH H). apply orb_true_r.
Qed.

Lemma forward_loop_spec m polls b :
  master_fd b = Some m -> loop_spec m b (forward_loop polls b).
Proof.
  intros Hm.
  destruct (forward_loop_frame polls b) as (? & ? & ? & ?).
  destruct (forward_loop_stops m polls b Hm) as [? Hs].
  constructor; auto.
  - apply forward_loop_outcome.
  - intros H'. apply Hs; auto.
  - intros. apply forward_loop_pipe; auto.
Qed.

Ltac loop_facts ps b :=
  let L := fresh "Hloop" in
  let m := lazymatch b with {| master_fd := Some ?m |} => m end in
  pose proof (forward_loop_spec m ps b eq_refl) as L;
  let r := fresh "r" in
  let b2 := fresh "b" in
  let t := fresh "t" in
  destruct (forward_loop ps b) as [[r b2] t];
  destruct L as [? ? ? ? O ? ? ?];
  unfold outcome, final, events in *; cbn [fst snd] in *;
  destruct b2; simpl in *; subst;
  destruct O as [[? ?]|?]; subst.

Ltac run_step :=
  match goal with
  | |- context [forward_loop ?ps ?b] => loop_facts ps b
  | |- context [match ?x with _ => _ end] =>
      lazymatch x with
      | context [match _ with _ => _ end] => fail
      | _ => destruct x eqn:?
      end
  end.

Ltac run_cases := run_unfold; repeat (run_step; run_unfold).

Lemma forwarding_filter (p : event -> bool) t :
  (forall e, is_forwarding e = true -> p e = false) ->
  Forall (fun e => is_forwarding e = true) t -> filter p t = [].
Proof.
  intros Hp. induction 1 as [|e t He _ IH]; simpl; auto.
  rewrite (Hp e He). exact IH.
Qed.

Lemma forwarding_not_restore e : is_forwarding e = true -> is_restore e = false.
Proof. destruct e; simpl; auto; discriminate. Qed.
Lemma forwarding_not_close e : is_forwarding e = true -> is_close e = false.
Proof. destruct e; simpl; auto; discriminate. Qed.
Lemma forwarding_not_print e : is_forwarding e = true -> is_print e = false.
Proof. destruct e; simpl; auto; discriminate. Qed.
Lemma forwarding_not_exec e : is_forwarding e = true -> is_exec e = false.
Proof. destruct e; simpl; auto; discriminate. Qed.

Lemma terminal_after_app w a t1 t2 :
  terminal_after w a (t1 ++ t2) = terminal_after w (terminal_after w a t1) t2.
Proof. apply fold_left_app. Qed.

Lemma terminal_after_forwarding w t :
  Forall (fun e => is_forwarding e = true) t ->
  forall a, terminal_after w a t = a.
Proof.
  induction 1 as [|e t He _ IH]; intros a; simpl; auto.
  unfold terminal_after in *. simpl.
  destruct e; simpl in *; try discriminate; apply IH.
Qed.

(** * The claims *)

(** C7. When standard input is not a terminal, the attribute read fails, the
    error is printed, [run] returns 1, and nothing else happens: the trace
    holds the failed read and the message only, so no child is forked, raw
    mode is not entered and the forwarding loop issues no call. *)
Theorem no_terminal_no_session w cmd :
  w_stdin_tty w = None ->
  main w cmd =
    (Val 1, init cmd,
     [EvTcgetattr stdin_fd (Err (TermiosError ENOTTY));
      EvPrintErr (TermiosError ENOTTY)]) /\
  count is_fork (events (main w cmd)) = 0%nat /\
  count is_setraw (events (main w cmd)) = 0%nat /\
  count is_forwarding (events (main w cmd)) = 0%nat.
Proof.
  intros H.
  assert (main w cmd =
    (Val 1, init cmd,
     [EvTcgetattr stdin_fd (Err (TermiosError ENOTTY));
      EvPrintErr (TermiosError ENOTTY)])) as E.
  { run_unfold. rewrite H. reflexivity. }
  rewrite E. repeat split.
Qed.

Lemma no_terminal_no_session_witness :
  w_stdin_tty world_no_tty = None /\
  outcome (main world_no_tty "cat") = Val 1.
Proof.
  split; [reflexivity|].
  rewrite (proj1 (no_terminal_no_session world_no_tty "cat" eq_refl)).
  reflexivity.
Defined.

(** ** Exit status *)

Lemma WEXITSTATUS_exited c : 0 <= c < 256 -> WEXITSTATUS (status_exited c) = c.
Proof.
  intros H. unfold WEXITSTATUS, status_exited.
  rewrite Z.shiftr_shiftl_l, Z.sub_diag, Z.shiftl_0_r by lia.
  change 255 with (Z.ones 8). rewrite Z.land_ones by lia.
  apply Z.mod_small. change (2 ^ 8) with 256. lia.
Qed.

Lemma WEXITSTATUS_signaled sig core :
  0 <= sig < 128 -> WEXITSTATUS (status_signaled sig core) = 0.
Proof.
  intros H. unfold WEXITSTATUS, status_signaled.
  rewrite Z.shiftr_lor.
  assert (Z.shiftr sig 8 = 0) as ->.
  { rewrite Z.shiftr_div_pow2 by lia. apply Z.div_small.
    change (2 ^ 8) with 256. lia. }
  destruct core; reflexivity.
Qed.

Lemma healthy_outcome w cmd a p m fl :
  healthy w a p m fl ->
  outcome (main w cmd) <> Halt Polling ->
  outcome (main w cmd) =
    match w_waitpid w with
    | Ok status => Val (WEXITSTATUS status)
    | Err e => if is_ChildProcessError e then Val 1
               else if is_Exception e then Val 1 else Exn e
    end.
Proof.
  intros (H1 & H2 & H3 & H4 & H5 & H6 & H7).
  apply Z.eqb_neq in H3.
  run_unfold. rewrite H1, H2. run_unfold. rewrite H3, H4, H5, H6, H7.
  run_cases; intros; congruence.
Qed.

(** C2 (as amended). In a session whose calls around the loop succeed and
    whose loop ends, [run] returns: the exit code of a child that exited
    normally; 0 for a child that a signal terminated, since WEXITSTATUS of
    such a status is 0; and 1 when waitpid fails with ECHILD. *)
Theorem exit_status_translation w cmd a p m fl :
  healthy w a p m fl ->
  outcome (main w cmd) <> Halt Polling ->
  (forall c, 0 <= c < 256 -> w_waitpid w = Ok (status_exited c) ->
             outcome (main w cmd) = Val c) /\
  (forall sig core, 0 <= sig < 128 ->
             w_waitpid w = Ok (status_signaled sig core) ->
             outcome (main w cmd) = Val 0) /\
  (w_waitpid w = Err (OSError ECHILD) -> outcome (main w cmd) = Val 1).
Proof.
  intros H Hp. rewrite (healthy_outcome w cmd a p m fl H Hp).
  repeat split.
  - intros c Hc ->. rewrite WEXITSTATUS_exited; auto.
  - intros sig core Hs ->. rewrite WEXITSTATUS_signaled; auto.
  - intros ->. reflexivity.
Qed.

Lemma healthy_session polls status : healthy (session polls status) attrs0 4242 3 2.
Proof. unfold healthy; simpl; repeat split; discriminate. Defined.

Lemma exit_status_translation_witness :
  outcome (main world_exit42 "./adding_game.py") = Val 42 /\
  outcome (main world_sigkill "./adding_game.py") = Val 0 /\
  outcome (main world_reaped "./adding_game.py") = Val 1.
Proof.
  split; [|split].
  - apply (proj1 (exit_status_translation world_exit42 "./adding_game.py"
                    attrs0 4242 3 2 (healthy_session _ _)
                    ltac:(vm_compute; discriminate)) 42);
      [lia | reflexivity].
  - apply (proj1 (proj2 (exit_status_translation world_sigkill "./adding_game.py"
                    attrs0 4242 3 2 (healthy_session _ _)
                    ltac:(vm_compute; discriminate))) 9 false);
      [lia | reflexivity].
  - apply (proj2 (proj2 (exit_status_translation world_reaped "./adding_game.py"
                    attrs0 4242 3 2 (healthy_session _ _)
                    ltac:(vm_compute; discriminate))));
      reflexivity.
Defined.

(** C2, counterexample. A child killed by SIGKILL: the wait status is 9, a
    signal termination, and the wrapper returns 0, not a non-zero code. *)
Lemma killed_child_yields_zero :
  w_waitpid world_sigkill = Ok (status_signaled 9 false) /\
  outcome (main world_sigkill "sleep 100") = Val 0 /\
  ~ (exists c, outcome (main world_sigkill "sleep 100") = Val c /\ c <> 0).
Proof.
  repeat split. intros (c & Hc & Hn). vm_compute in Hc. congruence.
Qed.

(** ** Errors in the loop *)

(** C3, at the failing input. A read on stdin fails with EIO, an error other
    than EAGAIN. The iteration comes back with [self.running] still true and
    without leaving the while loop (the [break] left the for loop only), and
    the session goes on: the next iteration selects again and forwards the
    byte typed by then. *)
Theorem stdin_error_does_not_end_loop :
  let b := {| command := "cat"; pid := Some 4242; master_fd := Some 3;
              running := true |} in
  let x := iteration (Ok [(stdin_fd, io_read_error (OSError EIO))]) b in
  EIO <> EAGAIN /\
  outcome x = Val Next /\ running (final x) = true /\
  filter is_forwarding (events (main world_stdin_eio "cat")) =
    [EvSelect [0; 3] 100 (Ok [0]); EvRead 0 8192 (Err (OSError EIO));
     EvSelect [0; 3] 100 (Ok [0]); EvRead 0 8192 (Ok [x78]);
     EvWrite 3 [x78] (Ok 1);
     EvSelect [0; 3] 100 (Ok [3]); EvRead 3 8192 (Ok [])].
Proof.
  cbv zeta. split; [discriminate|]. split; [reflexivity|].
  split; reflexivity.
Qed.

(** ** The command *)

(** C4 (as amended). In the process that pty.fork returns 0 to, the command
    is tokenized once. Two words or more: [execvp] is called with the word
    list. At most one word: [execlp] runs [bash -c] with the original
    string. A string that does not tokenize: no exec call at all, the
    ValueError is printed and [run] returns 1. And in every session, of the
    child or of the parent, the command of the bot is the same at the end. *)
Theorem child_exec_choice w cmd :
  (forall a m,
      w_stdin_tty w = Some a ->
      w_fork w = Ok (0, m) ->
      match shlex_split cmd with
      | Some args =>
          let file := if (1 <? List.length args)%nat then hd EmptyString args
                      else "bash"%string in
          let argv := if (1 <? List.length args)%nat then args
                      else ["bash"; "-c"; cmd]%string in
          filter is_exec (events (main w cmd)) = [EvExec file argv (w_exec w)] /\
          (w_exec w = None -> outcome (main w cmd) = Halt (Replaced file argv))
      | None =>
          main w cmd =
            (Val 1, init cmd,
             [EvTcgetattr stdin_fd (Ok a); EvFork (Ok (0, m));
              EvSetenv "TERM" "xterm-256color"; EvPrintErr ValueError])
      end) /\
  command (final (main w cmd)) = cmd.
Proof.
  split.
  - intros a m H1 H2. run_unfold. rewrite H1, H2. run_unfold.
    change (0 =? 0) with true. run_unfold.
    destruct (shlex_split cmd) as [args|]; run_unfold.
    + destruct (1 <? List.length args)%nat; run_unfold;
        destruct (w_exec w) as [e|]; run_unfold;
        try destruct (is_Exception e); simpl; repeat split; auto; discriminate.
    + reflexivity.
  - run_cases; reflexivity.
Qed.

Lemma child_exec_choice_witness :
  outcome (main world_child "python3 game.py") =
    Halt (Replaced "python3" ["python3"; "game.py"]%string).
Proof.
  exact (proj2 (proj1 (child_exec_choice world_child "python3 game.py")
                  attrs0 (-1) eq_refl eq_refl) eq_refl).
Defined.

(** C4, counterexample. "ls" tokenizes cleanly, into one word, and is run
    through [bash -c], not as a word list; "echo a | cat" holds a shell
    construct and is run as a word list, not through a shell; "echo 'a" does
    not tokenize and nothing is run: the error is printed. *)
Lemma exec_choice_is_by_word_count :
  (shlex_split "ls" = Some ["ls"%string] /\
   outcome (main world_child "ls") =
     Halt (Replaced "bash" ["bash"; "-c"; "ls"]%string)) /\
  (shlex_split "echo a | cat" = Some ["echo"; "a"; "|"; "cat"]%string /\
   outcome (main world_child "echo a | cat") =
     Halt (Replaced "echo" ["echo"; "a"; "|"; "cat"]%string)) /\
  (shlex_split "echo 'a" = None /\
   outcome (main world_child "echo 'a") = Val 1 /\
   count is_exec (events (main world_child "echo 'a")) = 0%nat /\
   count is_print (events (main world_child "echo 'a")) = 1%nat).
Proof. repeat split. Qed.

(** ** Restoring the terminal *)

Ltac flatten_trace :=
  repeat (progress cbn [app] || rewrite <- app_assoc || rewrite app_nil_r).

(** C1 (as amended). In a session that ends, tcsetattr is called exactly
    once, with the attributes saved at the start, if and only if the save
    succeeded and pty.fork returned a child pid; in every other case it is
    not called at all. When pty.fork fails with an Exception after a
    successful save, [run] prints the error and returns 1 without any
    restore, and the terminal, never put in raw mode, has its saved
    attributes. *)
Theorem restore_once_iff_session_started w cmd :
  (outcome (main w cmd) <> Halt Polling ->
   filter is_restore (events (main w cmd)) =
   match w_stdin_tty w, w_fork w with
   | Some a, Ok (p, m) =>
       if p =? 0 then []
       else [EvTcsetattr stdin_fd TCSADRAIN a (w_tcsetattr w)]
   | _, _ => []
   end) /\
  (forall a e,
      w_stdin_tty w = Some a -> w_fork w = Err e -> is_Exception e = true ->
      main w cmd =
        (Val 1, init cmd,
         [EvTcgetattr stdin_fd (Ok a); EvFork (Err e); EvPrintErr e]) /\
      terminal_after w a (events (main w cmd)) = a).
Proof.
  split.
  - run_cases; intros; try congruence; flatten_trace;
      cbn [filter is_restore]; rewrite ?filter_app;
      rewrite ?(forwarding_filter is_restore _ forwarding_not_restore)
        by assumption;
      try reflexivity.
  - intros a e H1 H2 H3.
    assert (main w cmd =
            (Val 1, init cmd,
             [EvTcgetattr stdin_fd (Ok a); EvFork (Err e); EvPrintErr e])) as E.
    { run_unfold. rewrite H1, H2. run_unfold. rewrite H3. reflexivity. }
    rewrite E. split; reflexivity.
Qed.

Lemma restore_once_iff_session_started_witness :
  filter is_restore (events (main world_exit42 "cat")) =
    [EvTcsetattr stdin_fd TCSADRAIN attrs0 (Ok tt)] /\
  main world_fork_fails "cat" =
    (Val 1, init "cat",
     [EvTcgetattr stdin_fd (Ok attrs0); EvFork (Err (OSError 12));
      EvPrintErr (OSError 12)]).
Proof.
  split.
  - apply (proj1 (restore_once_iff_session_started world_exit42 "cat")).
    vm_compute. discriminate.
  - apply (proj2 (restore_once_iff_session_started world_fork_fails "cat")
             attrs0 (OSError 12)); reflexivity.
Defined.

(** C1, counterexample. The save succeeds, pty.fork fails: [run] returns 1
    and the trace holds no restore, although the save had succeeded. *)
Lemma failed_fork_skips_restore :
  w_stdin_tty world_fork_fails = Some attrs0 /\
  outcome (main world_fork_fails "cat") = Val 1 /\
  count is_restore (events (main world_fork_fails "cat")) = 0%nat.
Proof. repeat split. Qed.

(** ** Bytes through the loop *)

Lemma bytes_written_complete fd t :
  writes_complete t = true ->
  bytes_written fd t = List.concat (chunks_offered fd t).
Proof.
  unfold writes_complete, bytes_written, chunks_offered.
  induction t as [|e t IH]; simpl; auto.
  intros H. apply andb_prop in H. destruct H as [He Ht].
  rewrite (IH Ht). destruct e; simpl; auto.
  destruct r as [n|x]; try discriminate.
  apply Z.eqb_eq in He. subst n. rewrite Nat2Z.id, firstn_all.
  destruct (fd0 =? fd); simpl; rewrite ?app_nil_r; reflexivity.
Qed.

(** C5 (as amended). A descriptor that select reports ready is read once,
    and a non-empty chunk is handed on at once: from standard input to the
    pty master, from the pty master to standard output, followed by a flush
    if the write returns. In every session, whatever the operating system
    answers: each non-empty chunk read from standard input is handed
    unmodified to one [os.write] on the pty master, one for one and in the
    same order; each non-empty chunk read from the pty master is handed in
    the same way to one [os.write] on standard output; and every write to
    standard output that returns is followed at once by a flush. What is
    written is, of each chunk, the part that [os.write] took: when every
    [os.write] returns the length of its chunk, the bytes written to the
    master are the bytes read from standard input and the bytes written to
    standard output are the bytes read from the master. *)
Theorem byte_exact_forwarding w cmd p m :
  w_fork w = Ok (p, m) ->
  m <> stdin_fd -> m <> stdout_fd ->
  chunks_read stdin_fd (events (main w cmd)) =
    chunks_offered m (events (main w cmd)) /\
  chunks_read m (events (main w cmd)) =
    chunks_offered stdout_fd (events (main w cmd)) /\
  flushed (events (main w cmd)) = true /\
  (writes_complete (events (main w cmd)) = true ->
   bytes_written m (events (main w cmd)) =
     List.concat (chunks_read stdin_fd (events (main w cmd))) /\
   bytes_written stdout_fd (events (main w cmd)) =
     List.concat (chunks_read m (events (main w cmd)))) /\
  (forall b io c d,
      master_fd b = Some m ->
      io_read io = Ok (c :: d) ->
      events (on_ready stdin_fd io b) =
        [EvRead stdin_fd CHUNK (Ok (c :: d)); EvWrite m (c :: d) (io_write io)] /\
      events (on_ready m io b) =
        EvRead m CHUNK (Ok (c :: d))
        :: EvWrite stdout_fd (c :: d) (io_write io)
        :: match io_write io with
           | Ok _ => [EvFlush (io_flush io)]
           | Err _ => []
           end).
Proof.
  intros Hf H0 H1.
  assert (pipe m (events (main w cmd))) as (P1 & P2 & P3).
  { run_unfold. rewrite Hf.
    run_cases; flatten_trace;
      try match goal with
          | H : _ -> _ -> pipe _ _ |- _ =>
              destruct (H H0 H1) as (P1 & P2 & P3);
              unfold chunks_read, chunks_offered in P1, P2
          end;
      unfold pipe, chunks_read, chunks_offered;
      cbn [flat_map flushed app]; rewrite ?flat_map_app;
      cbn [flat_map flushed app]; rewrite ?app_nil_r;
      rewrite ?flushed_app by assumption; cbn [flushed];
      auto. }
  split; [exact P1|]. split; [exact P2|]. split; [exact P3|]. split.
  - intros Hc. rewrite P1, P2.
    split; apply bytes_written_complete; assumption.
  - intros b io c d Hm Hr. apply Z.eqb_neq in H0. split.
    + unfold on_ready. munfold. rewrite Hm.
      change (stdin_fd =? stdin_fd) with true. cbn iota. rewrite Hr.
      mcases; reflexivity.
    + unfold on_ready. munfold. rewrite Hm, H0. cbn [is_master].
      rewrite Z.eqb_refl. cbn iota. rewrite Hr.
      mcases; reflexivity.
Qed.

Lemma byte_exact_forwarding_witness :
  bytes_written 3 (events (main world_exit42 "cat")) = [x61] /\
  bytes_written stdout_fd (events (main world_exit42 "cat")) = [x62] /\
  flushed (events (main world_exit42 "cat")) = true.
Proof.
  pose proof (byte_exact_forwarding world_exit42 "cat" 4242 3 eq_refl
                ltac:(discriminate) ltac:(discriminate))
    as (_ & _ & H3 & H4 & _).
  destruct (H4 eq_refl) as [H5 H6].
  rewrite H5, H6, H3. repeat split.
Defined.

(** C5, counterexample. The write of the chunk "a" to the master fails
    with EAGAIN: the chunk was read from standard input and is never
    written, the session goes on and writes "c". And a write to standard
    output that takes one byte of "hi" leaves "i" unwritten. *)
Lemma failed_or_short_write_loses_bytes :
  (chunks_read stdin_fd (events (main world_write_eagain "cat")) =
     [[x61]; [x63]] /\
   bytes_written 3 (events (main world_write_eagain "cat")) = [x63]) /\
  (chunks_read 3 (events (main world_short_write "cat")) = [[x68; x69]] /\
   bytes_written stdout_fd (events (main world_short_write "cat")) = [x68]).
Proof. repeat split. Qed.

(** ** End of stream *)

Lemma stop_last_split m t1 e t2 :
  stop_last m (t1 ++ e :: t2) = true -> stops m e = true -> t2 = [].
Proof.
  induction t1 as [|e1 t1 IH]; simpl; intros H He.
  - rewrite He in H. destruct t2; auto; discriminate.
  - destruct (stops m e1); auto.
    destruct t1; discriminate.
Qed.

Lemma existsb_split (p : event -> bool) t1 e t2 :
  p e = true -> existsb p (t1 ++ e :: t2) = true.
Proof.
  intros He. rewrite existsb_app. simpl. rewrite He.
  rewrite orb_true_r. reflexivity.
Qed.

(** C6. Once a read on the pty master returns zero bytes, that read is the
    last call of the loop: no select, read, write or flush follows it, the
    loop has returned, and [self.running] is false. *)
Theorem eof_ends_loop polls b m :
  master_fd b = Some m ->
  m <> stdin_fd ->
  forall t1 n t2,
    events (forward_loop polls b) = t1 ++ EvRead m n (Ok []) :: t2 ->
    t2 = [] /\
    outcome (forward_loop polls b) = Val tt /\
    running (final (forward_loop polls b)) = false.
Proof.
  intros Hm H0 t1 n t2 E.
  destruct (forward_loop_stops m polls b Hm) as [H1 H2].
  assert (stops m (EvRead m n (Ok [])) = true) as Hs.
  { simpl. apply Z.eqb_neq in H0. rewrite H0. reflexivity. }
  rewrite E in H1, H2. split.
  - eapply stop_last_split; eauto.
  - apply H2. apply existsb_split; auto.
Qed.

Lemma eof_ends_loop_witness :
  let b := {| command := "cat"; pid := Some 4242; master_fd := Some 3;
              running := true |} in
  let polls := [Ok [(3, io_eof)]; Ok [(0, io_data [x61])]] in
  outcome (forward_loop polls b) = Val tt /\
  running (final (forward_loop polls b)) = false.
Proof.
  cbv zeta.
  apply (eof_ends_loop [Ok [(3, io_eof)]; Ok [(0, io_data [x61])]]
           {| command := "cat"; pid := Some 4242; master_fd := Some 3;
              running := true |} 3 eq_refl ltac:(discriminate)
           [EvSelect [0; 3] 100 (Ok [3])] 8192 []).
  reflexivity.
Defined.

(** ** Interrupts *)

Lemma fold_left_forwarding w t s a :
  Forall (fun e => is_forwarding e = true) t ->
  fold_left (term_step w) (t ++ s) a = fold_left (term_step w) s a.
Proof.
  intros H. rewrite fold_left_app.
  f_equal. apply (terminal_after_forwarding w t H).
Qed.

(** C8 (as amended). A session on a terminal in which a call of the loop is
    interrupted: the loop ends; if the restore call succeeds the terminal
    has its saved attributes when [run] is over; and if the wait that
    follows returns a status, [run] returns WEXITSTATUS of it -- whatever
    the child exits with, zero included -- and 1 if the wait fails with
    ECHILD, printing nothing in both cases. *)
Theorem interrupt_in_loop w cmd a :
  w_stdin_tty w = Some a ->
  existsb interrupted (events (main w cmd)) = true ->
  outcome (main w cmd) <> Halt Polling /\
  (w_tcsetattr w = Ok tt ->
   terminal_after w a (events (main w cmd)) = a /\
   (forall status, w_waitpid w = Ok status ->
      outcome (main w cmd) = Val (WEXITSTATUS status) /\
      count is_print (events (main w cmd)) = 0%nat) /\
   (w_waitpid w = Err (OSError ECHILD) ->
      outcome (main w cmd) = Val 1 /\
      count is_print (events (main w cmd)) = 0%nat)).
Proof.
  intros H1. run_unfold. rewrite H1.
  run_cases; flatten_trace; cbn [existsb interrupted orb];
    rewrite ?existsb_app; cbn [existsb interrupted orb];
    rewrite ?orb_false_r; intros Hi;
    try discriminate;
    try (exfalso;
         match goal with
         | H : existsb (stops ?m) _ = true -> _ |- _ =>
             specialize (H (existsb_interrupted_stops m _ Hi)); discriminate
         end);
    (split; [discriminate|]); intros Ht; try discriminate;
    (split; [|split]); intros;
    repeat match goal with
           | H : Ok _ = Ok _ |- _ => inversion H; subst; clear H
           | H : Err _ = Err _ |- _ => inversion H; subst; clear H
           end;
    simpl in *; try discriminate;
    unfold terminal_after, count; cbn [fold_left term_step filter is_print];
    rewrite ?fold_left_forwarding by assumption;
    rewrite ?filter_app;
    rewrite ?(forwarding_filter is_print _ forwarding_not_print) by assumption;
    cbn [fold_left term_step filter is_print app List.length];
    auto.
Qed.

Lemma interrupt_in_loop_witness :
  terminal_after world_interrupt attrs0 (events (main world_interrupt "cat"))
    = attrs0 /\
  outcome (main world_interrupt "cat") = Val (WEXITSTATUS (status_exited 0)).
Proof.
  pose proof (interrupt_in_loop world_interrupt "cat" attrs0 eq_refl eq_refl)
    as (_ & H).
  destruct (H eq_refl) as (H1 & H2 & _).
  split; [exact H1 | exact (proj1 (H2 _ eq_refl))].
Defined.

(** C8, counterexample. The first select of the session is interrupted; the
    child then exits with 0 and the wrapper returns 0. *)
Lemma interrupted_session_returns_zero :
  existsb interrupted (events (main world_interrupt "cat")) = true /\
  outcome (main world_interrupt "cat") = Val 0 /\
  ~ (exists c, outcome (main world_interrupt "cat") = Val c /\ c <> 0).
Proof.
  repeat split. intros (c & Hc & Hn). vm_compute in Hc. congruence.
Qed.

(** ** The master descriptor *)

Lemma no_io_after_close_forwarding t s :
  Forall (fun e => is_forwarding e = true) t ->
  no_io_after_close (t ++ s) = no_io_after_close s.
Proof.
  induction 1 as [|e t He _ IH]; simpl; auto.
  destruct e; simpl in *; try discriminate; auto.
Qed.

Lemma no_io_after_close_loop t :
  Forall (fun e => is_forwarding e = true) t -> no_io_after_close t = true.
Proof.
  intros H. rewrite <- (app_nil_r t).
  rewrite no_io_after_close_forwarding by assumption. reflexivity.
Qed.

(** C9. In every session [os.close] is called at most once, and no select,
    read, write or flush comes after it. In a session that ends, with a
    child forked behind a master descriptor other than 0, the one close is
    that of the master descriptor. *)
Theorem master_closed_once w cmd :
  (count is_close (events (main w cmd)) <= 1)%nat /\
  no_io_after_close (events (main w cmd)) = true /\
  (forall a p m,
      w_stdin_tty w = Some a -> w_fork w = Ok (p, m) ->
      p <> 0 -> m <> 0 ->
      outcome (main w cmd) <> Halt Polling ->
      filter is_close (events (main w cmd)) = [EvClose m (w_close w)]).
Proof.
  split; [|split].
  - unfold count.
    run_cases; flatten_trace; cbn [filter is_close]; rewrite ?filter_app;
      rewrite ?(forwarding_filter is_close _ forwarding_not_close)
        by assumption;
      cbn [filter is_close app List.length]; auto.
  - run_cases; flatten_trace; cbn [no_io_after_close];
      rewrite ?no_io_after_close_forwarding by assumption;
      rewrite ?no_io_after_close_loop by assumption;
      reflexivity.
  - intros a p m H1 H2 Hp Hm.
    apply Z.eqb_neq in Hp. apply Z.eqb_neq in Hm.
    run_unfold. rewrite H1, H2. run_unfold. rewrite Hp.
    run_cases; intros; try congruence;
      try (rewrite ?Hm, ?Hp in *; simpl in *; discriminate);
      flatten_trace;
      cbn [filter is_close]; rewrite ?filter_app;
      rewrite ?(forwarding_filter is_close _ forwarding_not_close)
        by assumption;
      cbn [filter is_close app]; auto.
Qed.

Lemma master_closed_once_witness :
  filter is_close (events (main world_exit42 "cat")) = [EvClose 3 (Ok tt)].
Proof.
  apply (proj2 (proj2 (master_closed_once world_exit42 "cat"))
           attrs0 4242 3); try reflexivity; discriminate.
Defined.

(** ** The minimal wrapper *)

Section Keeps.
Context {S : Type} (I : S -> Prop) (P : event -> bool).

Lemma keeps_ret {A} (a : A) : keeps I P (ret a).
Proof. intros b Hb; simpl; auto. Qed.

Lemma keeps_raise {A} e : keeps I P (@raise S A e).
Proof. intros b Hb; simpl; auto. Qed.

Lemma keeps_emit e : P e = true -> keeps I P (emit e).
Proof. intros He b Hb; simpl; rewrite He; auto. Qed.

Lemma keeps_bind {A B} (m : Mon S A) (f : A -> Mon S B) :
  keeps I P m -> (forall a, keeps I P (f a)) -> keeps I P (bind m f).
Proof.
  intros Hm Hf b Hb. unfold bind.
  specialize (Hm b Hb). destruct (m b) as [[r b1] t1].
  destruct r as [a| |]; try exact Hm.
  unfold final, events in *; simpl in *. destruct Hm as [Hb1 Ht1].
  specialize (Hf a b1 Hb1). destruct (f a b1) as [[r2 b2] t2].
  simpl in *. destruct Hf as [Hb2 Ht2].
  split; auto. rewrite forallb_app, Ht1, Ht2. reflexivity.
Qed.

Lemma keeps_call {A} (ev : result A -> event) (r : result A) :
  P (ev r) = true -> keeps I P (call ev r).
Proof.
  intros He. apply keeps_bind; [apply keeps_emit; auto|].
  intros _. destruct r; [apply keeps_ret | apply keeps_raise].
Qed.

Lemma keeps_try_except {A} (m : Mon S A) h :
  keeps I P m ->
  (forall e k, h e = Some k -> keeps I P k) ->
  keeps I P (try_except m h).
Proof.
  intros Hm Hh b Hb. unfold try_except.
  specialize (Hm b Hb). destruct (m b) as [[r b1] t1].
  destruct r as [a|e|]; try exact Hm.
  destruct (h e) as [k|] eqn:Hk; try exact Hm.
  unfold final, events in *; simpl in *. destruct Hm as [Hb1 Ht1].
  specialize (Hh e k Hk b1 Hb1). destruct (k b1) as [[r2 b2] t2].
  simpl in *. destruct Hh as [Hb2 Ht2].
  split; auto. rewrite forallb_app, Ht1, Ht2. reflexivity.
Qed.

Lemma keeps_try_finally {A} (m : Mon S A) fin :
  keeps I P m -> keeps I P fin -> keeps I P (try_finally m fin).
Proof.
  intros Hm Hf b Hb. unfold try_finally.
  specialize (Hm b Hb). destruct (m b) as [[r b1] t1].
  unfold final, events in *; simpl in *. destruct Hm as [Hb1 Ht1].
  specialize (Hf b1 Hb1). destruct (fin b1) as [[r2 b2] t2].
  simpl in *. destruct Hf as [Hb2 Ht2].
  destruct r as [a|e|h]; simpl; auto;
    destruct r2; simpl; split; auto;
    rewrite forallb_app, Ht1, Ht2; reflexivity.
Qed.
End Keeps.

Ltac keeps_step :=
  first
    [ apply keeps_ret
    | apply keeps_raise
    | apply keeps_emit; reflexivity
    | apply keeps_call; reflexivity
    | apply keeps_bind; [|intros ?]
    | apply keeps_try_except; [|intros ? ? ?]
    | apply keeps_try_finally ].

Lemma keeps_get_process so se : keeps (pipes so se) (allowed so se) get_process.
Proof. intros b Hb; simpl; auto. Qed.

Lemma keeps_the_process so se : keeps (pipes so se) (allowed so se) the_process.
Proof.
  unfold the_process. apply keeps_bind; [apply keeps_get_process|].
  intros [pr|]; keeps_step.
Qed.

Lemma keeps_set_returncode so se c :
  keeps (pipes so se) (allowed so se) (set_returncode c).
Proof.
  intros b Hb. unfold set_returncode, the_process, get_process, set_process.
  munfold. destruct (process b) as [pr|] eqn:E; simpl; split; auto.
  intros pr' Hpr'. inversion Hpr'; subst; simpl. apply (Hb pr E).
Qed.

Lemma keeps_process_poll so se obs :
  keeps (pipes so se) (allowed so se) (process_poll obs).
Proof.
  unfold process_poll. apply keeps_bind; [apply keeps_the_process|].
  intros pr. destruct (returncode pr); [repeat keeps_step|].
  apply keeps_bind; [keeps_step | intros _].
  apply keeps_bind; [apply keeps_set_returncode | intros _; keeps_step].
Qed.

Lemma keeps_process_wait so se obs :
  keeps (pipes so se) (allowed so se) (process_wait obs).
Proof.
  unfold process_wait. apply keeps_bind; [apply keeps_the_process|].
  intros pr. destruct (returncode pr); [repeat keeps_step|].
  apply keeps_bind; [keeps_step | intros c].
  apply keeps_bind; [apply keeps_set_returncode | intros _; keeps_step].
Qed.

Lemma keeps_minimal_on_ready so se fd io :
  keeps (pipes so se) (allowed so se) (minimal_on_ready so se fd io).
Proof.
  assert (forall r, allowed so se (EvRead so CHUNK r) = true) as Hso
      by (intros; unfold allowed; simpl; rewrite Z.eqb_refl; reflexivity).
  assert (forall r, allowed so se (EvRead se CHUNK r) = true) as Hse
      by (intros; unfold allowed; simpl; rewrite Z.eqb_refl, orb_true_r;
          reflexivity).
  unfold minimal_on_ready, stream_forward.
  destruct (fd =? so); [|destruct (fd =? se)]; try keeps_step.
  - apply keeps_bind; [apply keeps_call; apply Hso|].
    intros [|c d]; repeat keeps_step.
  - destruct (is_OSError e); inversion H; keeps_step.
  - apply keeps_bind; [apply keeps_call; apply Hse|].
    intros [|c d]; repeat keeps_step.
  - destruct (is_OSError e); inversion H; keeps_step.
Qed.

Lemma keeps_minimal_for_ready so se ready :
  keeps (pipes so se) (allowed so se) (minimal_for_ready so se ready).
Proof.
  induction ready as [|[fd io] rest IH]; simpl; [keeps_step|].
  apply keeps_bind; [apply keeps_minimal_on_ready | intros _; exact IH].
Qed.

Lemma keeps_simple_loop so se steps :
  keeps (pipes so se) (allowed so se) (simple_loop so se steps).
Proof.
  induction steps as [|s rest IH]; simpl.
  - apply keeps_bind; [apply keeps_the_process|].
    intros pr. destruct (returncode pr); [keeps_step|].
    intros b Hb; simpl; auto.
  - apply keeps_bind; [apply keeps_process_poll|].
    intros [c|]; [keeps_step|].
    apply keeps_bind.
    + apply keeps_try_except.
      * unfold select. repeat keeps_step.
        destruct (ms_select s); keeps_step.
      * intros e k Hk.
        destruct (is_OSError e || is_KeyboardInterrupt e); inversion Hk.
        keeps_step.
    + intros [ready|]; [|keeps_step].
      apply keeps_bind; [apply keeps_minimal_for_ready | intros _; exact IH].
Qed.

Lemma keeps_set_nonblocking so se w fd :
  keeps (pipes so se) (allowed so se) (set_nonblocking w fd).
Proof. unfold set_nonblocking. repeat keeps_step. Qed.

Lemma bind_pure {S A B} (m : Mon S A) (f : A -> Mon S B) b a :
  m b = (Val a, b, []) -> bind m f b = f a b.
Proof.
  intros H. unfold bind. rewrite H.
  destruct (f a b) as [[r b2] t2]. reflexivity.
Qed.

Lemma bind_fails {S A B} (m : Mon S A) (f : A -> Mon S B) b e :
  m b = (Exn e, b, []) -> bind m f b = (Exn e, b, []).
Proof. intros H. unfold bind. rewrite H. reflexivity. Qed.

Lemma the_process_some b pr :
  process b = Some pr -> the_process b = (Val pr, b, []).
Proof. intros E. unfold the_process, get_process. munfold. rewrite E. reflexivity. Qed.

Lemma the_process_none b :
  process b = None -> the_process b = (Exn TypeError, b, []).
Proof. intros E. unfold the_process, get_process. munfold. rewrite E. reflexivity. Qed.

Lemma keeps_simple_forward so se w :
  keeps (pipes so se) (allowed so se) (_simple_forward w).
Proof.
  intros b Hb.
  assert (keeps (pipes so se) (allowed so se)
            (set_nonblocking w so ;; set_nonblocking w se ;;
             simple_loop so se (mw_steps w) ;; process_wait (mw_wait w))) as K.
  { apply keeps_bind; [apply keeps_set_nonblocking | intros _].
    apply keeps_bind; [apply keeps_set_nonblocking | intros _].
    apply keeps_bind; [apply keeps_simple_loop | intros _].
    apply keeps_process_wait. }
  unfold _simple_forward.
  destruct (process b) as [pr|] eqn:E.
  - rewrite (bind_pure _ _ b pr (the_process_some b pr E)).
    cbn zeta. destruct (Hb pr E) as [-> ->]. apply K, Hb.
  - rewrite (bind_fails _ _ b TypeError (the_process_none b E)).
    simpl. auto.
Qed.

Lemma keeps_popen so se w :
  (forall si so' se', mw_popen w = Ok (si, so', se') -> so' = so /\ se' = se) ->
  keeps (pipes so se) (allowed so se) (popen w).
Proof.
  intros Hw b Hb. unfold popen, set_process. munfold.
  destruct (mw_popen w) as [[[si so'] se']|e] eqn:E; simpl; split; auto.
  intros pr Hpr. inversion Hpr; subst; simpl. apply (Hw si); reflexivity.
Qed.

Lemma keeps_minimal_finally so se w :
  keeps (pipes so se) (allowed so se) (minimal_finally w).
Proof.
  unfold minimal_finally. apply keeps_bind; [apply keeps_get_process|].
  intros [pr|]; [|keeps_step].
  apply keeps_bind; [apply keeps_process_poll|].
  intros [c|]; [keeps_step|].
  apply keeps_bind; [keeps_step | intros _].
  apply keeps_bind; [apply keeps_process_wait | intros _; keeps_step].
Qed.

Lemma keeps_minimal_run so se w :
  (forall si so' se', mw_popen w = Ok (si, so', se') -> so' = so /\ se' = se) ->
  keeps (pipes so se) (allowed so se) (minimal_run w).
Proof.
  intros Hw. unfold minimal_run, minimal_run_printing.
  apply keeps_try_finally; [|apply keeps_minimal_finally].
  apply keeps_try_except.
  - apply keeps_bind; [apply keeps_popen; auto | intros _].
    apply keeps_simple_forward.
  - intros e k Hk. destruct (is_Exception e); inversion Hk.
    repeat keeps_step.
Qed.

Lemma allowed_split so se t :
  forallb (allowed so se) t = true ->
  existsb is_os_write_or_close t = false /\ forallb (reads_only so se) t = true.
Proof.
  induction t as [|e t IH]; simpl; auto.
  unfold allowed at 1. intros H.
  apply andb_prop in H. destruct H as [H1 H2].
  apply andb_prop in H1. destruct H1 as [H3 H4].
  destruct (IH H2) as [-> ->]. rewrite H4.
  destruct (is_os_write_or_close e); auto; discriminate.
Qed.

(** C10. The minimal wrapper never calls [os.write] or [os.close] -- so
    the stdin pipe that Popen created for the child is neither written to
    nor closed -- and every [os.read] it makes is on the pipe of the child's
    stdout or of the child's stderr. *)
Theorem minimal_never_feeds_child_stdin w cmd :
  existsb is_os_write_or_close (events (minimal_main w cmd)) = false /\
  (forall si so se,
      mw_popen w = Ok (si, so, se) ->
      forallb (reads_only so se) (events (minimal_main w cmd)) = true).
Proof.
  assert (forall so se,
             (forall si so' se', mw_popen w = Ok (si, so', se') ->
                                 so' = so /\ se' = se) ->
             forallb (allowed so se) (events (minimal_main w cmd)) = true) as K.
  { intros so se Hw.
    apply (keeps_minimal_run so se w Hw (minimal_init cmd)).
    intros pr Hpr. discriminate. }
  split.
  - destruct (mw_popen w) as [[[si so] se]|e] eqn:E.
    + apply (allowed_split so se). apply K.
      intros si' so' se' H. inversion H; auto.
    + apply (allowed_split 0 0). apply K. intros; discriminate.
  - intros si so se E. apply (allowed_split so se). apply K.
    intros si' so' se' H. rewrite E in H. inversion H; auto.
Qed.

Lemma minimal_never_feeds_child_stdin_witness :
  forallb (reads_only 6 8) (events (minimal_main mworld_hi "echo hi")) = true.
Proof.
  exact (proj2 (minimal_never_feeds_child_stdin mworld_hi "echo hi")
           5 6 8 eq_refl).
Defined.

(** * Further properties of the pty wrapper *)

Lemma forwarding_existsb (p : event -> bool) t :
  (forall e, is_forwarding e = true -> p e = false) ->
  Forall (fun e => is_forwarding e = true) t -> existsb p t = false.
Proof.
  intros Hp. induction 1 as [|e t He _ IH]; simpl; auto.
  rewrite (Hp e He). exact IH.
Qed.

Lemma forwarding_forallb (p : event -> bool) t :
  (forall e, is_forwarding e = true -> p e = true) ->
  Forall (fun e => is_forwarding e = true) t -> forallb p t = true.
Proof.
  intros Hp. induction 1 as [|e t He _ IH]; simpl; auto.
  rewrite (Hp e He). exact IH.
Qed.

Lemma forwarding_not_kill e : is_forwarding e = true -> is_kill e = false.
Proof. destruct e; simpl; auto; discriminate. Qed.
Lemma forwarding_not_setfl e : is_forwarding e = true -> is_setfl e = false.
Proof. destruct e; simpl; auto; discriminate. Qed.
Lemma forwarding_sets_nonblocking e :
  is_forwarding e = true -> sets_nonblocking e = true.
Proof. destruct e; simpl; auto; discriminate. Qed.

(** ** _cleanup *)

(** X1. Whatever [os.close] and [os.kill] raise, [_cleanup] returns normally;
    afterwards neither [self.master_fd] nor [self.pid] is truthy, and a
    second [_cleanup] makes no call at all. *)
Theorem cleanup_clears_and_is_idempotent w b :
  let x := _cleanup w b in
  outcome x = Val tt /\
  truthy (master_fd (final x)) = false /\
  truthy (pid (final x)) = false /\
  events (_cleanup w (final x)) = [].
Proof.
  cbv zeta. unfold _cleanup. destruct b as [c p m r].
  destruct m as [m|], p as [p|];
    try destruct (m =? 0) eqn:Em; try destruct (p =? 0) eqn:Ep;
    destruct (w_close w), (w_kill w);
    repeat (first [rewrite Em | rewrite Ep | progress run_unfold
                  | progress cbn [negb]]);
    auto.
Qed.

(** X2. [_cleanup] closes the master descriptor and then sends SIGTERM to the
    child, once each, when both fields are set and non-zero. *)
Theorem cleanup_closes_then_kills w b p m :
  pid b = Some p -> master_fd b = Some m -> p <> 0 -> m <> 0 ->
  _cleanup w b =
    (Val tt,
     {| command := command b; pid := None; master_fd := None;
        running := running b |},
     [EvClose m (w_close w); EvKill p SIGTERM (w_kill w)]).
Proof.
  intros Hp Hm Np Nm. apply Z.eqb_neq in Np. apply Z.eqb_neq in Nm.
  unfold _cleanup. destruct b as [c p' m' r]. simpl in Hp, Hm. subst.
  destruct (w_close w), (w_kill w);
    repeat (first [rewrite Np | rewrite Nm | progress run_unfold
                  | progress cbn [negb]]);
    reflexivity.
Qed.

Lemma cleanup_closes_then_kills_witness :
  events (_cleanup world_exit42
            {| command := "cat"; pid := Some 4242; master_fd := Some 3;
               running := false |}) =
    [EvClose 3 (Ok tt); EvKill 4242 SIGTERM (Ok tt)].
Proof.
  rewrite (cleanup_closes_then_kills world_exit42
             {| command := "cat"; pid := Some 4242; master_fd := Some 3;
                running := false |} 4242 3 eq_refl eq_refl
             ltac:(discriminate) ltac:(discriminate)).
  reflexivity.
Defined.

(** ** run *)

(** X3. [run] lets an exception escape only if it is a KeyboardInterrupt or
    was raised by the [print] of the error message itself. Every other
    Exception ends in the handler: at most one message is printed per run,
    and once the handler has been entered [run] returns 1 if the print
    succeeds and raises what the print raised if it does not. *)
Theorem run_contains_exceptions pr w cmd :
  let x := run_printing pr w (init cmd) in
  (forall e, outcome x = Exn e -> e = KeyboardInterrupt \/ pr = Err e) /\
  (existsb is_print (events x) = true ->
   outcome x = match pr with Ok _ => Val 1 | Err e => Exn e end) /\
  (count is_print (events x) <= 1)%nat.
Proof.
  cbv zeta. split; [|split].
  - run_cases; intros ? E; inversion E; subst; auto;
      repeat match goal with
             | H : is_Exception ?e = false |- _ =>
                 destruct e; try discriminate; clear H
             end;
      auto; try discriminate.
  - run_cases; flatten_trace; cbn [existsb is_print orb];
      rewrite ?existsb_app; cbn [existsb is_print orb];
      rewrite ?(forwarding_existsb is_print _ forwarding_not_print)
        by assumption;
      cbn [orb]; intros Hi; try discriminate; reflexivity.
  - unfold count.
    run_cases; flatten_trace; cbn [filter is_print]; rewrite ?filter_app;
      rewrite ?(forwarding_filter is_print _ forwarding_not_print)
        by assumption;
      cbn [filter is_print app List.length]; auto.
Qed.

Lemma run_contains_exceptions_witness :
  outcome (run_printing (Ok tt) world_fork_fails (init "cat")) = Val 1 /\
  outcome (run_printing (Err (OSError EIO)) world_fork_fails (init "cat"))
    = Exn (OSError EIO).
Proof.
  split.
  - apply (proj1 (proj2 (run_contains_exceptions (Ok tt) world_fork_fails "cat"))).
    reflexivity.
  - apply (proj1 (proj2 (run_contains_exceptions (Err (OSError EIO))
                           world_fork_fails "cat"))).
    reflexivity.
Defined.

(** X4. When [run] is over, by a return or by an exception, neither
    [self.master_fd] nor [self.pid] is truthy any more. *)
Theorem run_leaves_nothing_open w cmd :
  (forall h, outcome (main w cmd) <> Halt h) ->
  truthy (master_fd (final (main w cmd))) = false /\
  truthy (pid (final (main w cmd))) = false.
Proof.
  run_cases; intros Hh; try (exfalso; eapply Hh; reflexivity);
    repeat match goal with
           | H : negb ?x = false |- _ => apply negb_false_iff in H
           end;
    try congruence;
    cbn [truthy negb];
    repeat match goal with
           | H : (_ =? _) = _ |- _ => rewrite H
           end; auto.
Qed.

Lemma run_leaves_nothing_open_witness :
  truthy (master_fd (final (main world_exit42 "cat"))) = false /\
  truthy (pid (final (main world_exit42 "cat"))) = false.
Proof.
  apply (run_leaves_nothing_open world_exit42 "cat").
  intros h. vm_compute. discriminate.
Defined.

Lemma nil_peel {A} (s : list A) : s = [] ++ s.
Proof. reflexivity. Qed.
Lemma cons_peel {A} (e : A) l t s : l = t ++ s -> e :: l = (e :: t) ++ s.
Proof. intros ->. reflexivity. Qed.
Lemma app_peel {A} (l0 l t s : list A) : l = t ++ s -> l0 ++ l = (l0 ++ t) ++ s.
Proof. intros ->. apply app_assoc. Qed.

Ltac peel := first [ apply nil_peel | apply cons_peel; peel | apply app_peel; peel ].

(** X5. In a session that ends after a child was forked, the last two calls are
    the close of the master descriptor and a SIGTERM to the child, and no
    other signal is sent; the SIGTERM is sent also when waitpid has already
    returned the child's status. *)
Theorem sigterm_is_always_sent w cmd a p m :
  w_stdin_tty w = Some a -> w_fork w = Ok (p, m) -> p <> 0 -> m <> 0 ->
  outcome (main w cmd) <> Halt Polling ->
  exists t,
    events (main w cmd) =
      t ++ [EvClose m (w_close w); EvKill p SIGTERM (w_kill w)] /\
    existsb is_kill t = false /\
    (forall status fl,
        w_setraw w = Ok tt -> w_getfl w = Ok fl -> w_setfl w = Ok tt ->
        w_waitpid w = Ok status ->
        In (EvWaitpid p 0 (Ok status)) t).
Proof.
  intros H1 H2 Hp Hm.
  apply Z.eqb_neq in Hp. apply Z.eqb_neq in Hm.
  run_unfold. rewrite H1, H2. run_unfold. rewrite Hp.
  run_cases; intros; try congruence;
    try (rewrite ?Hm, ?Hp in *; simpl in *; discriminate);
    flatten_trace;
    (eexists; split; [peel|]);
    (split;
     [ cbn [existsb is_kill orb]; rewrite ?existsb_app;
       rewrite ?(forwarding_existsb is_kill _ forwarding_not_kill)
         by assumption;
       reflexivity
     | intros;
       repeat match goal with
              | H : Ok _ = Ok _ |- _ => inversion H; subst; clear H
              | H : Err _ = Ok _ |- _ => discriminate H
              end;
       cbn [In]; repeat (apply or_intror);
       apply in_or_app; right; left; reflexivity ]).
Qed.

Lemma sigterm_is_always_sent_witness :
  exists t,
    events (main world_exit42 "cat") =
      t ++ [EvClose 3 (Ok tt); EvKill 4242 SIGTERM (Ok tt)] /\
    In (EvWaitpid 4242 0 (Ok (status_exited 42))) t.
Proof.
  destruct (sigterm_is_always_sent world_exit42 "cat" attrs0 4242 3
              eq_refl eq_refl ltac:(discriminate) ltac:(discriminate)
              ltac:(vm_compute; discriminate)) as (t & E & _ & H).
  exists t. split; [exact E|].
  apply (H (status_exited 42) 2); reflexivity.
Defined.


Lemma nonblock_bit fl : Z.testbit (Z.lor fl O_NONBLOCK) 11 = true.
Proof. rewrite Z.lor_spec. apply orb_true_r. Qed.

(** X6. Standard input is switched to non-blocking mode at most once per
    session, by an F_SETFL that adds O_NONBLOCK to the flags read just
    before, and no later call gives the old flags back. *)
Theorem stdin_left_nonblocking w cmd :
  forallb sets_nonblocking (events (main w cmd)) = true /\
  (count is_setfl (events (main w cmd)) <= 1)%nat.
Proof.
  split.
  - run_cases; flatten_trace; cbn [forallb sets_nonblocking andb];
      rewrite ?forallb_app;
      rewrite ?(forwarding_forallb sets_nonblocking _
                  forwarding_sets_nonblocking) by assumption;
      rewrite ?nonblock_bit;
      reflexivity.
  - unfold count.
    run_cases; flatten_trace; cbn [filter is_setfl]; rewrite ?filter_app;
      rewrite ?(forwarding_filter is_setfl _ forwarding_not_setfl)
        by assumption;
      cbn [filter is_setfl app List.length]; auto.
Qed.

Lemma cleanup_only_after_print_forwarding t s :
  Forall (fun e => is_forwarding e = true) t ->
  cleanup_only_after_print (t ++ s) = cleanup_only_after_print s.
Proof.
  induction 1 as [|e t He _ IH]; simpl; auto.
  destruct e; simpl in *; try discriminate; auto.
Qed.

Lemma cleanup_only_after_print_loop t :
  Forall (fun e => is_forwarding e = true) t ->
  cleanup_only_after_print t = true.
Proof.
  intros H. rewrite <- (app_nil_r t).
  rewrite cleanup_only_after_print_forwarding by assumption. reflexivity.
Qed.

(** X7. An error message is the last thing [run] does before [_cleanup]: after
    it come only the close of the master descriptor and the SIGTERM, so
    every terminal call, the restore included, has been made before. *)
Theorem error_message_comes_last w cmd :
  cleanup_only_after_print (events (main w cmd)) = true.
Proof.
  run_cases; flatten_trace; cbn [cleanup_only_after_print];
    rewrite ?cleanup_only_after_print_forwarding by assumption;
    rewrite ?cleanup_only_after_print_loop by assumption;
    reflexivity.
Qed.

(** X8. In every session on a terminal that is over -- [run] has returned
    or raised -- the terminal has its saved attributes again if the restore
    call, when one was made, succeeded: whichever way the session went, a
    failed fork, a failed setraw or fcntl, an error or an interrupt in the
    loop, a failed or interrupted wait. *)
Theorem terminal_is_never_left_raw w cmd a :
  w_stdin_tty w = Some a ->
  w_tcsetattr w = Ok tt ->
  (forall h, outcome (main w cmd) <> Halt h) ->
  terminal_after w a (events (main w cmd)) = a.
Proof.
  intros H1 H2. run_unfold. rewrite H1. run_unfold.
  unfold terminal_after.
  run_cases; intros Hh; try congruence;
    try (exfalso; eapply Hh; reflexivity);
    flatten_trace;
    cbn [fold_left term_step];
    rewrite ?fold_left_forwarding by assumption;
    cbn [fold_left term_step]; try reflexivity.
Qed.

Lemma terminal_is_never_left_raw_witness :
  terminal_after world_sigkill attrs0 (events (main world_sigkill "cat"))
    = attrs0.
Proof.
  apply (terminal_is_never_left_raw world_sigkill "cat" attrs0);
    try reflexivity.
  intros h. vm_compute. discriminate.
Defined.

(** ** The loop *)

(** X9. Whatever the select, read, write and flush calls of the loop raise,
    a KeyboardInterrupt included, the loop does not pass it on: it returns
    with [self.running] false, or is still polling when the script of
    observations ends; and it changes no field of the bot other than
    [self.running]. *)
Theorem loop_contains_what_its_calls_raise polls b :
  let x := forward_loop polls b in
  ((outcome x = Val tt /\ running (final x) = false) \/
   outcome x = Halt Polling) /\
  pid (final x) = pid b /\ master_fd (final x) = master_fd b /\
  command (final x) = command b.
Proof.
  cbv zeta. split; [apply forward_loop_outcome|].
  destruct (forward_loop_frame polls b) as (H1 & H2 & H3 & _). auto.
Qed.

(** X10. Nothing follows, in the loop, a failed select, a failed or empty read on
    the master, a failed write to standard output, a failed flush, or any
    call that raised something other than an OSError; after such a call the
    loop has returned and [self.running] is false. *)
Theorem fatal_observation_ends_loop polls b m :
  master_fd b = Some m ->
  forall t1 e t2,
    events (forward_loop polls b) = t1 ++ e :: t2 ->
    stops m e = true ->
    t2 = [] /\
    outcome (forward_loop polls b) = Val tt /\
    running (final (forward_loop polls b)) = false.
Proof.
  intros Hm t1 e t2 E Hs.
  destruct (forward_loop_stops m polls b Hm) as [H1 H2].
  rewrite E in H1, H2. split.
  - eapply stop_last_split; eauto.
  - apply H2. apply existsb_split; auto.
Qed.

Lemma fatal_observation_ends_loop_witness :
  let b := {| command := "cat"; pid := Some 4242; master_fd := Some 3;
              running := true |} in
  let polls := [Ok [(3, mk_io (Ok [x62]) (Err (OSError EIO)) (Ok tt))];
                Ok [(0, io_data [x61])]] in
  outcome (forward_loop polls b) = Val tt /\
  running (final (forward_loop polls b)) = false.
Proof.
  cbv zeta.
  apply (fatal_observation_ends_loop
           [Ok [(3, mk_io (Ok [x62]) (Err (OSError EIO)) (Ok tt))];
            Ok [(0, io_data [x61])]]
           {| command := "cat"; pid := Some 4242; master_fd := Some 3;
              running := true |} 3 eq_refl
           [EvSelect [0; 3] 100 (Ok [3]); EvRead 3 8192 (Ok [x62])]
           (EvWrite 1 [x62] (Err (OSError EIO))) []);
    reflexivity.
Defined.

(** X11. An OSError on the stdin-to-master direction, whatever its errno, leaves
    [self.running] as it is and the iteration comes back without leaving
    the loop. With EAGAIN the remaining ready descriptors are served; with
    any other errno they are skipped for this iteration. *)
Theorem stdin_oserror_is_not_fatal b m io n rest :
  master_fd b = Some m ->
  io_read io = Err (OSError n) ->
  for_ready ((stdin_fd, io) :: rest) b =
    (if n =? EAGAIN
     then match for_ready rest b with
          | (r, b', t) => (r, b', EvRead stdin_fd CHUNK (Err (OSError n)) :: t)
          end
     else (Val tt, b, [EvRead stdin_fd CHUNK (Err (OSError n))])) /\
  iteration (Ok [(stdin_fd, io)]) b =
    (Val Next, b,
     [EvSelect [stdin_fd; m] POLL_MS (Ok [stdin_fd]);
      EvRead stdin_fd CHUNK (Err (OSError n))]).
Proof.
  intros Hm Hr. split.
  - simpl for_ready. unfold on_ready. munfold. rewrite Hm, Hr.
    cbn [Z.eqb stdin_fd is_OSError errno_of].
    destruct (n =? EAGAIN); cbn [negb].
    + destruct (for_ready rest b) as [[r b'] t]. reflexivity.
    + reflexivity.
  - unfold iteration, for_ready, on_ready. munfold. rewrite Hm, Hr.
    cbn [Z.eqb stdin_fd is_OSError errno_of map fst].
    destruct (n =? EAGAIN); reflexivity.
Qed.

Lemma stdin_oserror_is_not_fatal_witness :
  let b := {| command := "cat"; pid := Some 4242; master_fd := Some 3;
              running := true |} in
  outcome (iteration (Ok [(stdin_fd, io_read_error (OSError 9))]) b) = Val Next /\
  running (final (iteration (Ok [(stdin_fd, io_read_error (OSError 9))]) b)) = true.
Proof.
  cbv zeta.
  rewrite (proj2 (stdin_oserror_is_not_fatal
                    {| command := "cat"; pid := Some 4242; master_fd := Some 3;
                       running := true |} 3 (io_read_error (OSError 9)) 9 []
                    eq_refl eq_refl)).
  split; reflexivity.
Defined.

(** ** The child *)

Lemma snoc_append tok c s :
  (snoc tok c ++ s)%string = (tok ++ String c s)%string.
Proof.
  unfold snoc. induction tok as [|a tok IH]; simpl; auto.
  rewrite IH. reflexivity.
Qed.

Lemma plain_inv c :
  plain c = true ->
  is_whitespace c = false /\ is_quote c = false /\ is_escape c = false.
Proof.
  unfold plain. intros H.
  apply andb_prop in H. destruct H as [H H3].
  apply andb_prop in H. destruct H as [H1 H2].
  repeat split; apply negb_true_iff; assumption.
Qed.

Lemma read_tokens_word cs :
  forall tok q,
    forallb plain cs = true ->
    read_tokens st_word tok q cs =
      let word := (tok ++ string_of_list_ascii cs)%string in
      if negb q && negb (nonempty word) then Some [] else Some [word].
Proof.
  induction cs as [|c cs IH]; intros tok q H; simpl in *.
  - replace (tok ++ "")%string with tok; auto.
    clear. induction tok; simpl; congruence.
  - apply andb_prop in H. destruct H as [Hc Hcs].
    destruct (plain_inv c Hc) as (-> & -> & ->).
    rewrite (IH _ _ Hcs). cbv zeta. rewrite snoc_append. reflexivity.
Qed.

Lemma shlex_split_plain cmd :
  forallb plain (list_ascii_of_string cmd) = true ->
  shlex_split cmd = if nonempty cmd then Some [cmd] else Some [].
Proof.
  unfold shlex_split. destruct cmd as [|c cmd]; simpl; auto.
  intros H. apply andb_prop in H. destruct H as [Hc Hcs].
  destruct (plain_inv c Hc) as (-> & -> & ->).
  rewrite (read_tokens_word _ _ _ Hcs). cbv zeta.
  simpl. rewrite string_of_list_ascii_of_string. reflexivity.
Qed.

(** X12. A command without whitespace, quotes and backslashes -- a bare program
    name or path such as ./adding_game.py -- is always run through
    [bash -c], never through [execvp] of the word itself. *)
Theorem bare_command_runs_through_bash w cmd a m :
  w_stdin_tty w = Some a ->
  w_fork w = Ok (0, m) ->
  forallb plain (list_ascii_of_string cmd) = true ->
  filter is_exec (events (main w cmd)) =
    [EvExec "bash" ["bash"; "-c"; cmd]%string (w_exec w)] /\
  (w_exec w = None ->
   outcome (main w cmd) = Halt (Replaced "bash" ["bash"; "-c"; cmd]%string)).
Proof.
  intros H1 H2 Hp. run_unfold. rewrite H1, H2. run_unfold.
  change (0 =? 0) with true. run_unfold.
  rewrite (shlex_split_plain cmd Hp).
  destruct (nonempty cmd); run_unfold; cbn [List.length Nat.ltb Nat.leb];
    run_unfold; destruct (w_exec w) as [e|]; run_unfold;
    try destruct (is_Exception e); simpl; split; auto; discriminate.
Qed.

Lemma bare_command_runs_through_bash_witness :
  outcome (main world_child "./adding_game.py") =
    Halt (Replaced "bash" ["bash"; "-c"; "./adding_game.py"]%string).
Proof.
  apply (proj2 (bare_command_runs_through_bash world_child "./adding_game.py"
                  attrs0 (-1) eq_refl eq_refl eq_refl)).
  reflexivity.
Defined.

(** X13. In the forked child a failing exec (a command that cannot be found, for
    one) is reported by one error message and the return value 1; the child
    makes no terminal call, closes nothing and signals nobody. *)
Theorem child_exec_failure_returns_1 w cmd a m e :
  w_stdin_tty w = Some a ->
  w_fork w = Ok (0, m) ->
  w_exec w = Some e -> is_Exception e = true ->
  outcome (main w cmd) = Val 1 /\
  count is_print (events (main w cmd)) = 1%nat /\
  existsb (fun e => is_setraw e || is_restore e || is_close e || is_kill e)
          (events (main w cmd)) = false.
Proof.
  intros H1 H2 H3 H4. run_unfold. rewrite H1, H2. run_unfold.
  change (0 =? 0) with true. run_unfold. rewrite H3.
  destruct (shlex_split cmd) as [args|]; run_unfold;
    try destruct (1 <? List.length args)%nat; run_unfold;
    rewrite ?H4; simpl; auto.
Qed.

Lemma child_exec_failure_returns_1_witness :
  outcome (main world_child_noexec "no-such-program --flag") = Val 1.
Proof.
  apply (child_exec_failure_returns_1 world_child_noexec
           "no-such-program --flag" attrs0 (-1) (OSError 2));
    reflexivity.
Defined.

(** * Further properties of the minimal wrapper *)

Ltac body_step :=
  first
    [ apply keeps_ret
    | apply keeps_raise
    | apply keeps_emit; reflexivity
    | apply keeps_call; reflexivity
    | apply keeps_bind; [|intros ?]
    | apply keeps_try_except; [|intros ? ? ?]
    | apply keeps_try_finally ].

Lemma body_get_process : keeps anybot minimal_body_event get_process.
Proof. intros b Hb; simpl; auto. Qed.

Lemma body_the_process : keeps anybot minimal_body_event the_process.
Proof.
  unfold the_process. apply keeps_bind; [apply body_get_process|].
  intros [pr|]; body_step.
Qed.

Lemma body_set_returncode c : keeps anybot minimal_body_event (set_returncode c).
Proof.
  unfold set_returncode. apply keeps_bind; [apply body_the_process|].
  intros pr b Hb. simpl. auto.
Qed.

Lemma body_process_poll obs : keeps anybot minimal_body_event (process_poll obs).
Proof.
  unfold process_poll. apply keeps_bind; [apply body_the_process|].
  intros pr. destruct (returncode pr); [repeat body_step|].
  apply keeps_bind; [body_step | intros _].
  apply keeps_bind; [apply body_set_returncode | intros _; body_step].
Qed.

Lemma body_process_wait obs : keeps anybot minimal_body_event (process_wait obs).
Proof.
  unfold process_wait. apply keeps_bind; [apply body_the_process|].
  intros pr. destruct (returncode pr); [repeat body_step|].
  apply keeps_bind; [body_step | intros c].
  apply keeps_bind; [apply body_set_returncode | intros _; body_step].
Qed.

Lemma body_minimal_on_ready so se fd io :
  keeps anybot minimal_body_event (minimal_on_ready so se fd io).
Proof.
  unfold minimal_on_ready, stream_forward.
  destruct (fd =? so); [|destruct (fd =? se)]; try body_step.
  - apply keeps_bind; [body_step|]. intros [|c d]; repeat body_step.
  - destruct (is_OSError e); inversion H; body_step.
  - apply keeps_bind; [body_step|]. intros [|c d]; repeat body_step.
  - destruct (is_OSError e); inversion H; body_step.
Qed.

Lemma body_minimal_for_ready so se ready :
  keeps anybot minimal_body_event (minimal_for_ready so se ready).
Proof.
  induction ready as [|[fd io] rest IH]; simpl; [body_step|].
  apply keeps_bind; [apply body_minimal_on_ready | intros _; exact IH].
Qed.

Lemma body_simple_loop so se steps :
  keeps anybot minimal_body_event (simple_loop so se steps).
Proof.
  induction steps as [|s rest IH]; simpl.
  - apply keeps_bind; [apply body_the_process|].
    intros pr. destruct (returncode pr); [body_step|].
    intros b Hb; simpl; auto.
  - apply keeps_bind; [apply body_process_poll|].
    intros [c|]; [body_step|].
    apply keeps_bind.
    + apply keeps_try_except.
      * unfold select. repeat body_step.
        destruct (ms_select s); body_step.
      * intros e k Hk.
        destruct (is_OSError e || is_KeyboardInterrupt e); inversion Hk.
        body_step.
    + intros [ready|]; [|body_step].
      apply keeps_bind; [apply body_minimal_for_ready | intros _; exact IH].
Qed.

Lemma body_simple_forward w : keeps anybot minimal_body_event (_simple_forward w).
Proof.
  unfold _simple_forward, set_nonblocking.
  apply keeps_bind; [apply body_the_process | intros pr]. cbv zeta.
  apply keeps_bind; [repeat body_step | intros _].
  apply keeps_bind; [repeat body_step | intros _].
  apply keeps_bind; [apply body_simple_loop | intros _].
  apply body_process_wait.
Qed.

Lemma body_popen w : keeps anybot minimal_body_event (popen w).
Proof.
  unfold popen. apply keeps_bind; [intros b Hb; simpl; auto | intros cmd].
  apply keeps_bind; [body_step | intros fds].
  intros b Hb; simpl; auto.
Qed.

Lemma body_events w b :
  forallb minimal_body_event (events ((popen w ;; _simple_forward w) b)) = true.
Proof.
  apply (keeps_bind anybot minimal_body_event (popen w)
           (fun _ => _simple_forward w) (body_popen w)
           (fun _ => body_simple_forward w) b I).
Qed.

Ltac min_unfold :=
  cbv beta iota zeta delta
    [minimal_main minimal_run minimal_run_printing minimal_finally popen _simple_forward
     set_nonblocking process_wait process_poll set_returncode the_process
     get_process set_process minimal_init stream_forward
     outcome final events bind try_except try_finally call emit
     of_result ret raise select fst snd].

Lemma calm_on_ready so se fd io b :
  mild (io_read io) && mild (io_write io) && mild (io_flush io) = true ->
  outcome (minimal_on_ready so se fd io b) = Val tt /\
  final (minimal_on_ready so se fd io b) = b.
Proof.
  intros H. apply andb_prop in H. destruct H as [H H3].
  apply andb_prop in H. destruct H as [H1 H2].
  unfold minimal_on_ready, stream_forward.
  destruct (fd =? so); [|destruct (fd =? se)]; munfold;
    destruct (io_read io) as [[|c d]|e1]; simpl in *; auto;
    try (rewrite H1; auto);
    destruct (io_write io) as [u|e2]; simpl in *; auto;
    try (rewrite H2; auto);
    destruct (io_flush io) as [u'|e3]; simpl in *; auto;
    try (rewrite H3; auto);
    try destruct u'; auto.
Qed.

Lemma calm_for_ready so se ready :
  forall b,
    forallb (fun x => mild (io_read (snd x)) && mild (io_write (snd x))
                      && mild (io_flush (snd x))) ready = true ->
    outcome (minimal_for_ready so se ready b) = Val tt /\
    final (minimal_for_ready so se ready b) = b.
Proof.
  induction ready as [|[fd io] rest IH]; intros b H; simpl in *; auto.
  apply andb_prop in H. destruct H as [H1 H2].
  destruct (calm_on_ready so se fd io b H1) as [E1 E2].
  specialize (IH b H2). destruct IH as [E3 E4].
  unfold bind, outcome, final in *.
  destruct (minimal_on_ready so se fd io b) as [[r b1] t1].
  simpl in *. subst.
  destruct (minimal_for_ready so se rest b) as [[r2 b2] t2].
  simpl in *. subst. auto.
Qed.

Lemma calm_loop so se pre :
  forall b s post c,
    unreaped b ->
    forallb calm pre = true ->
    ms_poll s = Some c ->
    outcome (simple_loop so se (pre ++ s :: post) b) = Val tt /\
    reaped c (final (simple_loop so se (pre ++ s :: post) b)).
Proof.
  induction pre as [|s0 pre IH]; intros b s post c (pr & Hp & Hr) Hpre Hs.
  - simpl. min_unfold. rewrite Hp. cbn beta iota. rewrite Hr.
    cbn beta iota. rewrite Hp. cbn [process]. rewrite Hs. cbn beta iota.
    split; auto. eexists; split; reflexivity.
  - simpl in Hpre. apply andb_prop in Hpre. destruct Hpre as [Hc Hpre].
    unfold calm in Hc.
    destruct (ms_poll s0) eqn:E0; try discriminate.
    destruct (ms_select s0) as [ready|] eqn:E1; try discriminate.
    simpl app. simpl simple_loop. min_unfold. rewrite Hp. cbn beta iota.
    rewrite Hr. cbn beta iota. rewrite Hp. cbn [process]. rewrite E0, E1.
    cbn beta iota.
    set (b' := {| m_command := _; process := _ |}).
    destruct (calm_for_ready so se ready b' Hc) as [F1 F2].
    assert (unreaped b') as Hb' by (eexists; split; reflexivity).
    specialize (IH b' s post c Hb' Hpre Hs). destruct IH as [G1 G2].
    unfold outcome, final in *.
    destruct (minimal_for_ready so se ready b') as [[r1 b1] t1].
    simpl in *. subst.
    destruct (simple_loop so se (pre ++ s :: post) b') as [[r2 b2] t2].
    simpl in *. subst. auto.
Qed.

Lemma body_not_terminate_or_print t :
  forallb minimal_body_event t = true ->
  existsb is_terminate t = false /\ existsb is_print t = false.
Proof.
  induction t as [|e t IH]; simpl; auto.
  intros H. apply andb_prop in H. destruct H as [He Ht].
  destruct (IH Ht) as [-> ->].
  destruct e; simpl in *; try discriminate; auto.
Qed.

(** X14. If Popen and the fcntl calls succeed and the child is seen to exit with
    code [c] after any number of polls in which nothing worse than an
    OSError happened, the minimal wrapper returns [c]; it prints no error
    and does not terminate the child. *)
Theorem minimal_exit_code w cmd si so se pre s post c :
  minimal_up w si so se ->
  mw_steps w = pre ++ s :: post ->
  forallb calm pre = true ->
  ms_poll s = Some c ->
  outcome (minimal_main w cmd) = Val c /\
  existsb is_terminate (events (minimal_main w cmd)) = false /\
  existsb is_print (events (minimal_main w cmd)) = false.
Proof.
  intros (H1 & (fl1 & H2) & H3 & (fl2 & H4) & H5) Hsteps Hpre Hs.
  set (b1 := {| m_command := cmd;
                process := Some {| p_stdin := si; p_stdout := so;
                                   p_stderr := se; returncode := None |} |}).
  assert (unreaped b1) as Hb1 by (eexists; split; reflexivity).
  destruct (calm_loop so se pre b1 s post c Hb1 Hpre Hs) as [L1 (pr & L2 & L3)].
  pose proof (body_simple_loop so se (pre ++ s :: post) b1 I) as [_ L4].
  destruct (body_not_terminate_or_print _ L4) as [L5 L6].
  min_unfold. rewrite H1. cbn [m_command process fst snd]. min_unfold.
  cbn [p_stdout p_stderr]. rewrite H2, H3. min_unfold. rewrite H4, H5.
  min_unfold. rewrite Hsteps. fold b1.
  unfold outcome, final, events in *.
  destruct (simple_loop so se (pre ++ s :: post) b1) as [[r b2] t].
  simpl in L1, L2, L4, L5, L6. subst r. cbn beta iota.
  repeat (first [rewrite L2 | rewrite L3]; cbn beta iota).
  split; [reflexivity|].
  flatten_trace. cbn [existsb is_terminate is_print orb].
  rewrite !existsb_app, L5, L6. cbn. auto.
Qed.

Lemma minimal_exit_code_witness :
  outcome (minimal_main mworld_exit3 "sh -c 'echo hi; exit 3'") = Val 3.
Proof.
  apply (minimal_exit_code mworld_exit3 "sh -c 'echo hi; exit 3'" 5 6 8
           [mk_mstep None (Ok [(6, io_data [x68; x69]);
                               (8, io_read_error (OSError EAGAIN))])]
           (mk_mstep (Some 3) (Ok [])) [] 3).
  - unfold minimal_up; simpl; repeat split; eauto.
  - reflexivity.
  - reflexivity.
  - reflexivity.
Defined.

(** ** Output of the child *)

Section TKeeps.
Context {S : Type} (I : S -> Prop) (Q : list event -> Prop).
Hypothesis Q_nil : Q [].
Hypothesis Q_app : forall t1 t2, Q t1 -> Q t2 -> Q (t1 ++ t2).

Lemma tkeeps_ret {A} (a : A) : tkeeps I Q (ret a).
Proof. intros b Hb; simpl; auto. Qed.

Lemma tkeeps_raise {A} e : tkeeps I Q (@raise S A e).
Proof. intros b Hb; simpl; auto. Qed.

Lemma tkeeps_emit e : Q [e] -> tkeeps I Q (emit e).
Proof. intros He b Hb; simpl; auto. Qed.

Lemma tkeeps_bind {A B} (m : Mon S A) (f : A -> Mon S B) :
  tkeeps I Q m -> (forall a, tkeeps I Q (f a)) -> tkeeps I Q (bind m f).
Proof.
  intros Hm Hf b Hb. unfold bind.
  specialize (Hm b Hb). destruct (m b) as [[r b1] t1].
  destruct r as [a| |]; try exact Hm.
  unfold final, events in *; simpl in *. destruct Hm as [Hb1 Ht1].
  specialize (Hf a b1 Hb1). destruct (f a b1) as [[r2 b2] t2].
  simpl in *. destruct Hf as [Hb2 Ht2]. auto.
Qed.

Lemma tkeeps_call {A} (ev : result A -> event) (r : result A) :
  Q [ev r] -> tkeeps I Q (call ev r).
Proof.
  intros He. apply tkeeps_bind; [apply tkeeps_emit; auto|].
  intros _. destruct r; [apply tkeeps_ret | apply tkeeps_raise].
Qed.

Lemma tkeeps_try_except {A} (m : Mon S A) h :
  tkeeps I Q m ->
  (forall e k, h e = Some k -> tkeeps I Q k) ->
  tkeeps I Q (try_except m h).
Proof.
  intros Hm Hh b Hb. unfold try_except.
  specialize (Hm b Hb). destruct (m b) as [[r b1] t1].
  destruct r as [a|e|]; try exact Hm.
  destruct (h e) as [k|] eqn:Hk; try exact Hm.
  unfold final, events in *; simpl in *. destruct Hm as [Hb1 Ht1].
  specialize (Hh e k Hk b1 Hb1). destruct (k b1) as [[r2 b2] t2].
  simpl in *. destruct Hh as [Hb2 Ht2]. auto.
Qed.

Lemma tkeeps_try_finally {A} (m : Mon S A) fin :
  tkeeps I Q m -> tkeeps I Q fin -> tkeeps I Q (try_finally m fin).
Proof.
  intros Hm Hf b Hb. unfold try_finally.
  specialize (Hm b Hb). destruct (m b) as [[r b1] t1].
  unfold final, events in *; simpl in *. destruct Hm as [Hb1 Ht1].
  specialize (Hf b1 Hb1). destruct (fin b1) as [[r2 b2] t2].
  simpl in *. destruct Hf as [Hb2 Ht2].
  destruct r as [a|e|h]; simpl; auto; destruct r2; simpl; auto.
Qed.
End TKeeps.

Lemma minimal_pipe_nil so se : minimal_pipe so se [].
Proof. unfold minimal_pipe; simpl; auto. Qed.

Lemma minimal_pipe_app so se t1 t2 :
  minimal_pipe so se t1 -> minimal_pipe so se t2 ->
  minimal_pipe so se (t1 ++ t2).
Proof.
  unfold minimal_pipe, chunks_read, chunks_buffered.
  intros [A1 B1] [A2 B2]. rewrite !flat_map_app.
  rewrite A1, A2, B1, B2. auto.
Qed.

Ltac pipe_step so se :=
  first
    [ apply (tkeeps_ret _ _ (minimal_pipe_nil so se))
    | apply (tkeeps_raise _ _ (minimal_pipe_nil so se))
    | apply tkeeps_emit; unfold minimal_pipe; simpl; auto; fail
    | apply (tkeeps_call _ _ (minimal_pipe_nil so se) (minimal_pipe_app so se));
      unfold minimal_pipe; simpl; auto; fail
    | apply (tkeeps_bind _ _ (minimal_pipe_app so se)); [|intros ?]
    | apply (tkeeps_try_except _ _ (minimal_pipe_app so se)); [|intros ? ? ?]
    | apply (tkeeps_try_finally _ _ (minimal_pipe_app so se)) ].

Lemma pipe_get_process so se :
  tkeeps (pipes so se) (minimal_pipe so se) get_process.
Proof. intros b Hb; split; [exact Hb | apply minimal_pipe_nil]. Qed.

Lemma pipe_the_process so se :
  tkeeps (pipes so se) (minimal_pipe so se) the_process.
Proof.
  unfold the_process.
  apply (tkeeps_bind _ _ (minimal_pipe_app so se)); [apply pipe_get_process|].
  intros [pr|]; pipe_step so se.
Qed.

Lemma pipe_set_returncode so se c :
  tkeeps (pipes so se) (minimal_pipe so se) (set_returncode c).
Proof.
  intros b Hb. unfold set_returncode, the_process, get_process, set_process.
  munfold. destruct (process b) as [pr|] eqn:E; simpl;
    (split; [|apply minimal_pipe_nil]); auto.
  intros pr' Hpr'. inversion Hpr'; subst; simpl. apply (Hb pr E).
Qed.

Lemma pipe_process_poll so se obs :
  tkeeps (pipes so se) (minimal_pipe so se) (process_poll obs).
Proof.
  unfold process_poll.
  apply (tkeeps_bind _ _ (minimal_pipe_app so se)); [apply pipe_the_process|].
  intros pr. destruct (returncode pr); [repeat pipe_step so se|].
  apply (tkeeps_bind _ _ (minimal_pipe_app so se)); [pipe_step so se | intros _].
  apply (tkeeps_bind _ _ (minimal_pipe_app so se));
    [apply pipe_set_returncode | intros _; pipe_step so se].
Qed.

Lemma pipe_process_wait so se obs :
  tkeeps (pipes so se) (minimal_pipe so se) (process_wait obs).
Proof.
  unfold process_wait.
  apply (tkeeps_bind _ _ (minimal_pipe_app so se)); [apply pipe_the_process|].
  intros pr. destruct (returncode pr); [repeat pipe_step so se|].
  apply (tkeeps_bind _ _ (minimal_pipe_app so se)); [pipe_step so se | intros c].
  apply (tkeeps_bind _ _ (minimal_pipe_app so se));
    [apply pipe_set_returncode | intros _; pipe_step so se].
Qed.

Lemma pipe_minimal_on_ready so se fd io :
  so <> se ->
  tkeeps (pipes so se) (minimal_pipe so se) (minimal_on_ready so se fd io).
Proof.
  intros Hne b Hb.
  assert ((so =? se) = false) as E1 by (apply Z.eqb_neq; auto).
  assert ((se =? so) = false) as E2 by (apply Z.eqb_neq; congruence).
  unfold minimal_on_ready, stream_forward.
  mcases; (split; [exact Hb|]);
    unfold minimal_pipe, chunks_read, chunks_buffered;
    cbn [flat_map app]; rewrite ?Z.eqb_refl, ?E1, ?E2; cbn [flat_map app];
    auto.
Qed.

Lemma pipe_minimal_for_ready so se ready :
  so <> se ->
  tkeeps (pipes so se) (minimal_pipe so se) (minimal_for_ready so se ready).
Proof.
  intros Hne. induction ready as [|[fd io] rest IH]; simpl; [pipe_step so se|].
  apply (tkeeps_bind _ _ (minimal_pipe_app so se));
    [apply pipe_minimal_on_ready; auto | intros _; exact IH].
Qed.

Lemma pipe_simple_loop so se steps :
  so <> se ->
  tkeeps (pipes so se) (minimal_pipe so se) (simple_loop so se steps).
Proof.
  intros Hne. induction steps as [|s rest IH]; simpl.
  - apply (tkeeps_bind _ _ (minimal_pipe_app so se)); [apply pipe_the_process|].
    intros pr. destruct (returncode pr); [pipe_step so se|].
    intros b Hb; split; [exact Hb | apply minimal_pipe_nil].
  - apply (tkeeps_bind _ _ (minimal_pipe_app so se)); [apply pipe_process_poll|].
    intros [c|]; [pipe_step so se|].
    apply (tkeeps_bind _ _ (minimal_pipe_app so se)).
    + apply (tkeeps_try_except _ _ (minimal_pipe_app so se)).
      * unfold select. repeat pipe_step so se.
        destruct (ms_select s); pipe_step so se.
      * intros e k Hk.
        destruct (is_OSError e || is_KeyboardInterrupt e); inversion Hk.
        pipe_step so se.
    + intros [ready|]; [|pipe_step so se].
      apply (tkeeps_bind _ _ (minimal_pipe_app so se));
        [apply pipe_minimal_for_ready; auto | intros _; exact IH].
Qed.

Lemma pipe_set_nonblocking so se w fd :
  tkeeps (pipes so se) (minimal_pipe so se) (set_nonblocking w fd).
Proof. unfold set_nonblocking. repeat pipe_step so se. Qed.

Lemma pipe_simple_forward so se w :
  so <> se ->
  tkeeps (pipes so se) (minimal_pipe so se) (_simple_forward w).
Proof.
  intros Hne b Hb.
  assert (tkeeps (pipes so se) (minimal_pipe so se)
            (set_nonblocking w so ;; set_nonblocking w se ;;
             simple_loop so se (mw_steps w) ;; process_wait (mw_wait w))) as K.
  { apply (tkeeps_bind _ _ (minimal_pipe_app so se));
      [apply pipe_set_nonblocking | intros _].
    apply (tkeeps_bind _ _ (minimal_pipe_app so se));
      [apply pipe_set_nonblocking | intros _].
    apply (tkeeps_bind _ _ (minimal_pipe_app so se));
      [apply pipe_simple_loop; auto | intros _].
    apply pipe_process_wait. }
  unfold _simple_forward.
  destruct (process b) as [pr|] eqn:E.
  - rewrite (bind_pure _ _ b pr (the_process_some b pr E)).
    cbn zeta. destruct (Hb pr E) as [-> ->]. apply K, Hb.
  - rewrite (bind_fails _ _ b TypeError (the_process_none b E)).
    split; [exact Hb | apply minimal_pipe_nil].
Qed.

Lemma pipe_popen so se w :
  (forall si so' se', mw_popen w = Ok (si, so', se') -> so' = so /\ se' = se) ->
  tkeeps (pipes so se) (minimal_pipe so se) (popen w).
Proof.
  intros Hw b Hb. unfold popen, set_process. munfold.
  destruct (mw_popen w) as [[[si so'] se']|e] eqn:E; simpl;
    (split; [|unfold minimal_pipe; simpl; auto]); auto.
  intros pr Hpr. inversion Hpr; subst; simpl. apply (Hw si); reflexivity.
Qed.

Lemma pipe_minimal_finally so se w :
  tkeeps (pipes so se) (minimal_pipe so se) (minimal_finally w).
Proof.
  unfold minimal_finally.
  apply (tkeeps_bind _ _ (minimal_pipe_app so se)); [apply pipe_get_process|].
  intros [pr|]; [|pipe_step so se].
  apply (tkeeps_bind _ _ (minimal_pipe_app so se)); [apply pipe_process_poll|].
  intros [c|]; [pipe_step so se|].
  apply (tkeeps_bind _ _ (minimal_pipe_app so se)); [pipe_step so se | intros _].
  apply (tkeeps_bind _ _ (minimal_pipe_app so se));
    [apply pipe_process_wait | intros _; pipe_step so se].
Qed.

Lemma bytes_streamed_complete s t :
  stream_writes_complete t = true ->
  bytes_streamed s t = List.concat (chunks_buffered s t).
Proof.
  unfold stream_writes_complete, bytes_streamed, chunks_buffered.
  induction t as [|e t IH]; simpl; auto.
  intros H. apply andb_prop in H. destruct H as [He Ht].
  rewrite (IH Ht). destruct e; simpl; auto.
  destruct r as [n|x]; try discriminate.
  apply Z.eqb_eq in He. subst n. rewrite Nat2Z.id, firstn_all.
  destruct s0, s; simpl; rewrite ?app_nil_r; reflexivity.
Qed.

(** X15. A pipe of the child that select reports ready is read once, and
    a non-empty chunk is handed at once to the [write] of the matching
    stream, followed by a flush if the write returns. Whatever happens in a
    run of the minimal wrapper, each non-empty chunk read from the child's stdout pipe is handed unmodified to one
    [sys.stdout.buffer.write], one for one and in order, and each chunk read
    from the child's stderr pipe to one [sys.stderr.buffer.write]. What is
    written is what those calls took: when every one of them returns the
    length of its chunk, the bytes written to [sys.stdout.buffer] are the
    bytes read from the child's stdout pipe, and likewise for stderr. *)
Theorem minimal_output_exact w cmd si so se :
  mw_popen w = Ok (si, so, se) ->
  so <> se ->
  chunks_read so (events (minimal_main w cmd)) =
    chunks_buffered Sys_stdout (events (minimal_main w cmd)) /\
  chunks_read se (events (minimal_main w cmd)) =
    chunks_buffered Sys_stderr (events (minimal_main w cmd)) /\
  (stream_writes_complete (events (minimal_main w cmd)) = true ->
   bytes_streamed Sys_stdout (events (minimal_main w cmd)) =
     List.concat (chunks_read so (events (minimal_main w cmd))) /\
   bytes_streamed Sys_stderr (events (minimal_main w cmd)) =
     List.concat (chunks_read se (events (minimal_main w cmd)))) /\
  (forall b io c d,
      io_read io = Ok (c :: d) ->
      events (minimal_on_ready so se so io b) =
        EvRead so CHUNK (Ok (c :: d))
        :: EvStreamWrite Sys_stdout (c :: d) (io_write io)
        :: match io_write io with
           | Ok _ => [EvStreamFlush Sys_stdout (io_flush io)]
           | Err _ => []
           end /\
      events (minimal_on_ready so se se io b) =
        EvRead se CHUNK (Ok (c :: d))
        :: EvStreamWrite Sys_stderr (c :: d) (io_write io)
        :: match io_write io with
           | Ok _ => [EvStreamFlush Sys_stderr (io_flush io)]
           | Err _ => []
           end).
Proof.
  intros Hw Hne.
  assert (minimal_pipe so se (events (minimal_main w cmd))) as [P1 P2].
  { assert (tkeeps (pipes so se) (minimal_pipe so se) (minimal_run w)) as K.
    { unfold minimal_run, minimal_run_printing.
      apply (tkeeps_try_finally _ _ (minimal_pipe_app so se));
        [|apply pipe_minimal_finally].
      apply (tkeeps_try_except _ _ (minimal_pipe_app so se)).
      - apply (tkeeps_bind _ _ (minimal_pipe_app so se)).
        + apply pipe_popen. intros si' so' se' H. rewrite Hw in H.
          inversion H; auto.
        + intros _. apply pipe_simple_forward; auto.
      - intros e k Hk. destruct (is_Exception e); inversion Hk.
        repeat pipe_step so se. }
    apply (K (minimal_init cmd)). intros pr Hpr. discriminate. }
  split; [exact P1|]. split; [exact P2|]. split.
  - intros Hc. rewrite P1, P2.
    split; apply bytes_streamed_complete; assumption.
  - intros b io c d Hr. clear P1 P2.
    assert ((se =? so) = false) as E by (apply Z.eqb_neq; congruence).
    split; unfold minimal_on_ready, stream_forward;
      rewrite ?Z.eqb_refl, ?E; munfold; rewrite Hr; mcases; reflexivity.
Qed.

Lemma minimal_output_exact_witness :
  bytes_streamed Sys_stdout (events (minimal_main mworld_hi "echo hi"))
    = [x68; x69] /\
  bytes_streamed Sys_stderr (events (minimal_main mworld_hi "echo hi"))
    = [x21].
Proof.
  destruct (minimal_output_exact mworld_hi "echo hi" 5 6 8 eq_refl
              ltac:(discriminate)) as (_ & _ & H & _).
  destruct (H eq_refl) as [H1 H2].
  rewrite H1, H2. split; reflexivity.
Defined.

(** ** The finally block *)

(** X16. [terminate()] is called only if the [poll()] of the finally block
    finds the child alive; and an exception that leaves [run] is a
    KeyboardInterrupt, or was raised by the [print] of the error message,
    or by that [terminate()] or the [wait()] after it. *)
Theorem minimal_terminates_only_the_living pr w cmd :
  let x := minimal_run_printing pr w (minimal_init cmd) in
  (existsb is_terminate (events x) = true -> mw_final_poll w = None) /\
  (forall e, outcome x = Exn e ->
             e = KeyboardInterrupt \/ pr = Err e \/
             (mw_final_poll w = None /\
              (mw_terminate w = Err e \/ mw_final_wait w = Err e))).
Proof.
  cbv zeta.
  pose proof (body_events w (minimal_init cmd)) as Hb.
  destruct (body_not_terminate_or_print _ Hb) as [Ht _].
  unfold minimal_run_printing, try_finally, try_except.
  unfold events, outcome in *.
  destruct ((popen w;; _simple_forward w) (minimal_init cmd)) as [[r b1] t1].
  simpl in Ht.
  assert (forall b (x : res unit * MinimalShellBot * list event),
             x = minimal_finally w b ->
             (existsb is_terminate (snd x) = true -> mw_final_poll w = None) /\
             (forall e, fst (fst x) = Exn e ->
                        mw_final_poll w = None /\
                        (mw_terminate w = Err e \/ mw_final_wait w = Err e)) /\
             (forall h, fst (fst x) <> Halt h)) as F.
  { intros b x ->. unfold minimal_finally. min_unfold.
    destruct (process b) as [p|] eqn:Ep;
      [destruct (returncode p) as [c|] eqn:Er|];
      destruct (mw_final_poll w) as [c'|] eqn:Ef;
      destruct (mw_terminate w) as [u|e1] eqn:Et;
      destruct (mw_final_wait w) as [c''|e2] eqn:Ew;
      repeat (progress (rewrite ?Ep, ?Er, ?Ef, ?Et, ?Ew;
                        cbn beta iota; cbn [process returncode]));
      repeat split; simpl; intros; try congruence; auto;
      match goal with H : Exn _ = Exn _ |- _ => inversion H; auto end. }
  destruct r as [a|e|h]; cbn beta iota;
    [| destruct (is_Exception e) eqn:Ee; cbn beta iota;
       [destruct pr as [u|ep]|];
       cbv beta iota zeta delta [bind emit ret raise of_result]
     | simpl; rewrite Ht; split; intros; discriminate ].
  all: match goal with
       | |- context [minimal_finally ?w' ?b] =>
           specialize (F b _ eq_refl); destruct F as (F1 & F2 & F3);
           destruct (minimal_finally w' b) as [[r2 b2] t2]
       end;
    simpl in *;
    destruct r2 as [?|e2|h2]; simpl;
    rewrite ?existsb_app, ?Ht; simpl; (split; [auto|]);
    intros; try discriminate;
    repeat match goal with
           | H : Exn _ = Exn _ |- _ => inversion H; subst; clear H
           end;
    try (exfalso; eapply F3; reflexivity);
    try (right; right; apply F2; reflexivity);
    try (right; left; reflexivity);
    try (left;
         match goal with
         | H : is_Exception ?x = false |- ?x = _ =>
             destruct x; try discriminate; reflexivity
         end).
Qed.

Lemma minimal_terminates_only_the_living_witness :
  existsb is_terminate (events (minimal_main mworld_interrupted "cat")) = true /\
  mw_final_poll mworld_interrupted = None /\
  outcome (minimal_main mworld_interrupted "cat") = Exn KeyboardInterrupt.
Proof.
  split; [reflexivity|]. split.
  - apply (proj1 (minimal_terminates_only_the_living (Ok tt)
                    mworld_interrupted "cat")).
    reflexivity.
  - reflexivity.
Defined.

(** X17. When Popen itself fails with an Exception, the wrapper prints the error
    and returns 1; [self.process] is still None, so the finally block
    neither polls nor terminates anything. *)
Theorem minimal_popen_failure_returns_1 w cmd e :
  mw_popen w = Err e -> is_Exception e = true ->
  minimal_main w cmd =
    (Val 1, minimal_init cmd, [EvPopen cmd (Err e); EvPrintErr e]).
Proof.
  intros H1 H2. min_unfold. cbn [m_command]. rewrite H1. cbn beta iota.
  rewrite H2. reflexivity.
Qed.

Lemma minimal_popen_failure_returns_1_witness :
  outcome (minimal_main mworld_no_popen "cat") = Val 1.
Proof.
  rewrite (minimal_popen_failure_returns_1 mworld_no_popen "cat" (OSError 12)
             eq_refl eq_refl).
  reflexivity.
Defined.
